(** * Dutchie fetch orchestration: a shallow embedding of [src/lib/dutchie-utils.ts]

    The development follows the source file top to bottom:

    - the wire data (stores, products, variants), typed after the selection
      sets of [STORES_QUERY] and [SPECIALS_QUERY];
    - JavaScript exceptions and the result of an awaited call;
    - [fetchWithTimeout] and [fetchFromDutchie];
    - the Cloudflare KV namespace, as an explicit store threaded through
      every call;
    - [fetchDutchieStores] and [fetchStoreSpecials] (cache-aside);
    - [Promise.allSettled], [fetchMultipleStoreSpecials] and
      [fetchStoreSpecialsInBatches];
    - [calculateDiscount];
    - [transformToWebP] and the [imageTransforms] presets of
      [src/lib/image-utils.ts].

    Modelling conventions.
    - Prices on the wire are integers (minor currency units).  The
      arguments of [calculateDiscount] are IEEE 754 binary64 numbers:
      [NaN], the infinities, the signed zeros, and the rounding to nearest
      (ties to even) of every arithmetic operation are modelled.
    - A GraphQL response has the shape its query selects; positions the code
      guards with [?.], [||] or a truthiness test are [option]s.
    - [console.*] calls and the wall-clock [duration] field are left out.
    - The network is a function of the request, so the same request always
      meets the same upstream answer. *)

From Stdlib Require Import ZArith QArith Qround Qpower Qabs Lqa Ascii.
From stdpp Require Import gmap strings list pretty.

Local Open Scope string_scope.
Local Open Scope Z_scope.

(** ** Wire data *)

(** [retailers { id name address phone }] *)
Record Store := mkStore {
  store_id : string;
  store_name : string;
  address : string;
  phone : string
}.

(** [variants { id option priceRec specialPriceRec quantity }];
    [specialPriceRec] is [null] when the variant is not discounted. *)
Record ProductVariant := mkVariant {
  variant_id : string;
  variant_option : string;
  priceRec : Z;
  specialPriceRec : option Z;
  quantity : Z
}.

(** [products { id name brand { name } category subcategory image description
    potencyCbd { formatted } potencyThc { formatted } variants { ... } }] *)
Record Product := mkProduct {
  product_id : string;
  product_name : string;
  brand : option string;
  category : string;
  subcategory : option string;
  image : option string;
  description : option string;
  potencyCbd : option string;
  potencyThc : option string;
  variants : option (list ProductVariant)
}.

Record Menu := mkMenu { menu_products : option (list Product) }.

(** The [data] member of a GraphQL answer: an object that may carry
    [retailers] (stores query) and [menu] (specials query). *)
Record Data := mkData {
  retailers : option (list Store);
  menu : option Menu
}.

Record GraphQLErrorItem := mkGraphQLErrorItem { message : string }.

(** [JSON.parse(responseText)]: [{ errors?, data? }]. *)
Record GraphQLBody := mkBody {
  body_errors : option (list GraphQLErrorItem);
  body_data : option Data
}.

(** ** Constants *)

Definition API_TIMEOUT_MS : Z := 10000.
Definition CACHE_TTL_SECONDS : Z := 900.

(** The two query documents the module sends. *)
Inductive Query := STORES_QUERY | SPECIALS_QUERY.

(** [Record<string, any>]: the variables of a request. *)
Definition Variables := list (string * string).

(** ** Exceptions and awaited results *)

Record JsError := mkJsError { err_name : string; err_message : string }.

(** [new Error(msg)] *)
Definition Error (msg : string) : JsError := mkJsError "Error" msg.

Inductive Result (A : Type) : Type :=
| Ok (a : A)
| Throw (e : JsError).
Arguments Ok {A} a.
Arguments Throw {A} e.

Definition result_bind {A B} (r : Result A) (k : A -> Result B) : Result B :=
  match r with
  | Ok a => k a
  | Throw e => Throw e
  end.

(** [Array.prototype.join] on an array of strings. *)
Fixpoint join (sep : string) (l : list string) : string :=
  match l with
  | [] => ""
  | [x] => x
  | x :: rest => x +:+ sep +:+ join sep rest
  end.

(** ** The network *)

(** A [Response]: [status], the text of the body, and what [JSON.parse]
    makes of that text ([None] when it throws). *)
Record Response := mkResponse {
  status : Z;
  responseText : string;
  parsed : option GraphQLBody
}.

(** [response.ok]: the status is in the range 200-299. *)
Definition ok (r : Response) : bool :=
  (200 <=? status r) && (status r <=? 299).

(** What happens to one outbound request when nobody aborts it: an answer
    after [latency] milliseconds, a transport failure, or nothing at all. *)
Inductive FetchOutcome :=
| Responds (latency : Z) (r : Response)
| NetworkError (latency : Z) (e : JsError)
| Hangs.

Definition Network := Query -> Variables -> FetchOutcome.

Definition AbortError : JsError :=
  mkJsError "AbortError" "The operation was aborted".

Definition SyntaxError : JsError :=
  mkJsError "SyntaxError" "Unexpected token in JSON".

(** [fetch(url, { ...options, signal })] with the abort timer armed for
    [timeoutMs]: whatever has not settled by then is aborted. *)
Definition fetch (o : FetchOutcome) (timeoutMs : Z) : Result Response :=
  match o with
  | Responds t r => if t <? timeoutMs then Ok r else Throw AbortError
  | NetworkError t e => if t <? timeoutMs then Throw e else Throw AbortError
  | Hangs => Throw AbortError
  end.

(** Lines 66-84. *)
Definition fetchWithTimeout (o : FetchOutcome) (timeoutMs : Z) : Result Response :=
  match fetch o timeoutMs with
  | Ok response => Ok response
  | Throw error =>
      if String.eqb (err_name error) "AbortError"
      then Throw (Error ("Request timeout after " +:+ pretty timeoutMs +:+ "ms"))
      else Throw error
  end.

(** Lines 89-116.  [timeoutMs] is the optional third parameter. *)
Definition fetchFromDutchie (net : Network) (query : Query)
    (variables : Variables) (timeoutMs : option Z) : Result (option Data) :=
  result_bind (fetchWithTimeout (net query variables) (default API_TIMEOUT_MS timeoutMs))
    (fun response =>
       if negb (ok response)
       then Throw (Error ("API Error: " +:+ pretty (status response) +:+ " - "
                            +:+ responseText response))
       else match parsed response with
            | None => Throw SyntaxError
            | Some data =>
                match body_errors data with
                | Some errs =>
                    Throw (Error ("GraphQL Error: " +:+ join ", " (map message errs)))
                | None => Ok (body_data data)
                end
            end).

(** ** The KV namespace

    The contents of the [DUTCHIE_CACHE] namespace are the state every call
    threads.  Values are kept as the arrays [JSON.stringify] was given,
    together with the [expirationTtl] of the write; an expired entry is an
    absent one.  The two key families, ['dutchie:stores:all'] and
    ['dutchie:specials:<storeId>'], never collide and hold arrays of
    different element types, hence two maps. *)
Record KVState := mkKVState {
  kv_stores : gmap string (list Store * Z);
  kv_specials : gmap string (list Product * Z)
}.

(** The binding itself: for each key, whether [get] or [put] throws. *)
Record KVNamespace := mkKVNamespace {
  get_fault : string -> option JsError;
  put_fault : string -> option JsError
}.

(** [Astro.locals]: [locals?.runtime?.env?.DUTCHIE_CACHE]. *)
Record RuntimeEnv := mkRuntimeEnv { DUTCHIE_CACHE : option KVNamespace }.
Record Runtime := mkRuntime { env : option RuntimeEnv }.
Record Locals := mkLocals { runtime : option Runtime }.

(** Lines 59-61. *)
Definition getKVNamespace (locals : option Locals) : option KVNamespace :=
  ((locals ≫= runtime) ≫= env) ≫= DUTCHIE_CACHE.

(** ** Asynchronous code: exceptions over the KV state

    A throw keeps the state reached so far: a [put] that went through is
    not undone by a later exception. *)
Definition Async (A : Type) : Type := KVState -> Result A * KVState.

Definition ret {A} (a : A) : Async A := fun σ => (Ok a, σ).

Definition lift {A} (r : Result A) : Async A := fun σ => (r, σ).

Definition bind {A B} (m : Async A) (k : A -> Async B) : Async B :=
  fun σ =>
    match m σ with
    | (Ok a, σ') => k a σ'
    | (Throw e, σ') => (Throw e, σ')
    end.

(** [try { body } catch (error) { handler }] *)
Definition try_catch {A} (body : Async A) (handler : JsError -> Async A) : Async A :=
  fun σ =>
    match body σ with
    | (Ok a, σ') => (Ok a, σ')
    | (Throw e, σ') => handler e σ'
    end.

Notation "'let!' x ':=' m 'in' k" := (bind m (fun x => k))
  (at level 10, x pattern, m at level 100, k at level 200).

(** [kv.get(key, 'json')]: the stored array, or [null]. *)
Definition kv_get_stores (kv : KVNamespace) (key : string) : Async (option (list Store)) :=
  fun σ =>
    match get_fault kv key with
    | Some e => (Throw e, σ)
    | None => (Ok (fst <$> kv_stores σ !! key), σ)
    end.

Definition kv_get_specials (kv : KVNamespace) (key : string) : Async (option (list Product)) :=
  fun σ =>
    match get_fault kv key with
    | Some e => (Throw e, σ)
    | None => (Ok (fst <$> kv_specials σ !! key), σ)
    end.

(** [kv.put(key, JSON.stringify(value), { expirationTtl })] *)
Definition kv_put_stores (kv : KVNamespace) (key : string) (value : list Store)
    (expirationTtl : Z) : Async unit :=
  fun σ =>
    match put_fault kv key with
    | Some e => (Throw e, σ)
    | None =>
        (Ok tt, mkKVState (<[key := (value, expirationTtl)]> (kv_stores σ)) (kv_specials σ))
    end.

Definition kv_put_specials (kv : KVNamespace) (key : string) (value : list Product)
    (expirationTtl : Z) : Async unit :=
  fun σ =>
    match put_fault kv key with
    | Some e => (Throw e, σ)
    | None =>
        (Ok tt, mkKVState (kv_stores σ) (<[key := (value, expirationTtl)]> (kv_specials σ)))
    end.

(** ** fetchDutchieStores (lines 121-162) *)

Definition stores_cache_key : string := "dutchie:stores:all".

Definition fetchDutchieStores (net : Network) (locals : option Locals) : Async (list Store) :=
  let kv := getKVNamespace locals in
  let cacheKey := stores_cache_key in
  (* Try cache first *)
  let! hit :=
    match kv with
    | Some kv => try_catch (kv_get_stores kv cacheKey) (fun _ => ret None)
    | None => ret None
    end in
  match hit with
  | Some cached => ret cached
  | None =>
      (* Fetch from API *)
      try_catch
        (let! data := lift (fetchFromDutchie net STORES_QUERY [] None) in
         let stores := default [] (data ≫= retailers) in
         let! _ :=
           match kv with
           | Some kv =>
               if (0 <? length stores)%nat
               then try_catch (kv_put_stores kv cacheKey stores CACHE_TTL_SECONDS)
                              (fun _ => ret tt)
               else ret tt
           | None => ret tt
           end in
         ret stores)
        (fun _ => ret [])
  end.

(** ** fetchStoreSpecials (lines 167-221) *)

Definition specials_cache_key (storeId : string) : string :=
  "dutchie:specials:" +:+ storeId.

(** [v.specialPriceRec && v.specialPriceRec !== v.priceRec], as [some]
    reads it: the special price is truthy (neither [null] nor [0]) and is
    not the regular price. *)
Definition variant_on_special (v : ProductVariant) : bool :=
  match specialPriceRec v with
  | Some sp => negb (sp =? 0) && negb (sp =? priceRec v)
  | None => false
  end.

(** [product.variants?.some(...)], as [filter] reads it. *)
Definition has_special_variant (product : Product) : bool :=
  match variants product with
  | Some vs => existsb variant_on_special vs
  | None => false
  end.

(** Lines 171-182: the cache read.  [Some cached] is the early return. *)
Definition readSpecialsCache (kv : option KVNamespace) (cacheKey : string)
  : Async (option (list Product)) :=
  match kv with
  | Some kv => try_catch (kv_get_specials kv cacheKey) (fun _ => ret None)
  | None => ret None
  end.

(** Lines 184-220: the upstream call, the filter and the write-back. *)
Definition fetchSpecialsFromApi (net : Network) (storeId : string)
    (kv : option KVNamespace) (cacheKey : string) : Async (list Product) :=
  try_catch
    (let! specialsData :=
       lift (fetchFromDutchie net SPECIALS_QUERY [("retailerId", storeId)] None) in
     match (specialsData ≫= menu) ≫= menu_products with
     | Some products =>
         (* Filter products that have special prices *)
         let specialProducts := List.filter has_special_variant products in
         (* Store in cache *)
         let! _ :=
           match kv with
           | Some kv =>
               try_catch (kv_put_specials kv cacheKey specialProducts CACHE_TTL_SECONDS)
                         (fun _ => ret tt)
           | None => ret tt
           end in
         ret specialProducts
     | None => ret []
     end)
    (fun _ => ret []).

Definition fetchStoreSpecials (net : Network) (storeId : string) (storeName : string)
    (locals : option Locals) : Async (list Product) :=
  let kv := getKVNamespace locals in
  let cacheKey := specials_cache_key storeId in
  let! hit := readSpecialsCache kv cacheKey in
  match hit with
  | Some cached => ret cached
  | None => fetchSpecialsFromApi net storeId kv cacheKey
  end.

(** ** Promise.allSettled over the per-store tasks

    Each element of [stores.map(store => fetchStoreSpecials(...).then(...))]
    is a task.  A task touches the namespace at most twice: when its cache
    read is served and when its write-back is served; what it computes in
    between (the upstream call, the filter) does not depend on the
    namespace.  A task therefore has two resumptions, one per access, and
    which unsettled task resumes next is not the program's choice. *)

Inductive Settled (A : Type) : Type :=
| Fulfilled (value : A)
| Rejected (reason : JsError).
Arguments Fulfilled {A} value.
Arguments Rejected {A} reason.

Inductive Task :=
| AwaitingCache (store : Store)
| AwaitingUpstream (store : Store).

Definition task_store (t : Task) : Store :=
  match t with
  | AwaitingCache store => store
  | AwaitingUpstream store => store
  end.

(** [.then(products => ({ store, products }))] *)
Definition settle_with (store : Store) (r : Result (list Product))
  : Settled (Store * list Product) :=
  match r with
  | Ok products => Fulfilled (store, products)
  | Throw e => Rejected e
  end.

(** One resumption of a task: it either suspends again or settles. *)
Definition task_step (net : Network) (locals : option Locals) (t : Task) (σ : KVState)
  : (Task + Settled (Store * list Product)) * KVState :=
  let kv := getKVNamespace locals in
  match t with
  | AwaitingCache store =>
      match readSpecialsCache kv (specials_cache_key (store_id store)) σ with
      | (Ok None, σ') => (inl (AwaitingUpstream store), σ')
      | (Ok (Some cached), σ') => (inr (Fulfilled (store, cached)), σ')
      | (Throw e, σ') => (inr (Rejected e), σ')
      end
  | AwaitingUpstream store =>
      let '(r, σ') :=
        fetchSpecialsFromApi net (store_id store) kv
          (specials_cache_key (store_id store)) σ in
      (inr (settle_with store r), σ')
  end.

(** The event loop.  [pool] holds the unsettled tasks with their index in
    the input array; [sched] says which of them resumes next (position in
    the pool, modulo its size); a settled task writes its slot. *)
Fixpoint run_pool (net : Network) (locals : option Locals) (fuel : nat)
    (sched : list nat) (pool : list (nat * Task))
    (slots : list (option (Settled (Store * list Product)))) (σ : KVState)
  : list (option (Settled (Store * list Product))) * KVState :=
  match fuel with
  | O => (slots, σ)
  | S fuel' =>
      let k := (hd O sched `mod` length pool)%nat in
      match pool !! k with
      | None => (slots, σ)
      | Some (i, t) =>
          match task_step net locals t σ with
          | (inl t', σ') =>
              run_pool net locals fuel' (tl sched) (<[k := (i, t')]> pool) slots σ'
          | (inr r, σ') =>
              run_pool net locals fuel' (tl sched) (delete k pool)
                       (<[i := Some r]> slots) σ'
          end
      end
  end.

(** [await Promise.allSettled(stores.map(...))]: the array of outcomes in
    input order, once every slot is written; [None] if one never is. *)
Definition Promise_allSettled (net : Network) (locals : option Locals)
    (sched : list nat) (stores : list Store) (σ : KVState)
  : option (list (Settled (Store * list Product)) * KVState) :=
  let pool := imap (fun i store => (i, AwaitingCache store)) stores in
  let '(slots, σ') :=
    run_pool net locals (2 * length stores) sched pool
             (replicate (length stores) None) σ in
  slots' ← mapM id slots; Some (slots', σ').

(** ** fetchMultipleStoreSpecials (lines 227-284) *)

Record StoreSpecialsResult := mkStoreSpecialsResult {
  sr_store : Store;
  sr_products : list Product;
  specialCount : nat
}.

Record AggregateResult := mkAggregateResult {
  storeSpecials : list StoreSpecialsResult;
  totalSpecials : nat;
  errors : list string
}.

(** [result.reason?.message || 'Unknown error'] *)
Definition reason_message (reason : JsError) : string :=
  if String.eqb (err_message reason) "" then "Unknown error" else err_message reason.

(** [const storeSpecials = []; const errors = []; let totalSpecials = 0;] *)
Definition no_results : AggregateResult := mkAggregateResult [] O [].

(** The body of the [for] loop (lines 249-265) for one index. *)
Definition process_result (store : Store) (result : Settled (Store * list Product))
    (acc : AggregateResult) : AggregateResult :=
  match result with
  | Fulfilled (_, products) =>
      if (0 <? length products)%nat
      then mkAggregateResult
             (storeSpecials acc ++ [mkStoreSpecialsResult store products (length products)])
             (totalSpecials acc + length products)%nat
             (errors acc)
      else acc
  | Rejected reason =>
      mkAggregateResult (storeSpecials acc) (totalSpecials acc)
        (errors acc ++ [store_name store +:+ ": " +:+ reason_message reason])
  end.

(** The loop: [results[i]] and [stores[i]] are walked together. *)
Fixpoint process_results (stores : list Store)
    (results : list (Settled (Store * list Product))) (acc : AggregateResult)
  : AggregateResult :=
  match results, stores with
  | result :: results', store :: stores' =>
      process_results stores' results' (process_result store result acc)
  | _, _ => acc
  end.

Definition fetchMultipleStoreSpecials (net : Network) (sched : list nat)
    (stores : list Store) (locals : option Locals) (σ : KVState)
  : option (AggregateResult * KVState) :=
  '(results, σ') ← Promise_allSettled net locals sched stores σ;
  Some (process_results stores results no_results, σ').

(** ** fetchStoreSpecialsInBatches (lines 289-319) *)

(** [Array.prototype.slice(start, end)] with relative indices. *)
Definition js_slice {A} (l : list A) (start end_ : Z) : list A :=
  let len := Z.of_nat (length l) in
  let k := if start <? 0 then Z.max (len + start) 0 else Z.min start len in
  let final := if end_ <? 0 then Z.max (len + end_) 0 else Z.min end_ len in
  take (Z.to_nat (final - k)) (drop (Z.to_nat k) l).

(** Lines 307-309: [push(...storeSpecials)], [+= batchTotal],
    [push(...errors)]. *)
Definition accumulate (acc r : AggregateResult) : AggregateResult :=
  mkAggregateResult (storeSpecials acc ++ storeSpecials r)
                    (totalSpecials acc + totalSpecials r)%nat
                    (errors acc ++ errors r).

(** The [for (let i = 0; i < stores.length; i += batchSize)] loop.  It does
    not end when [batchSize] is not positive, hence the fuel; [scheds] gives
    the resumption order inside each batch. *)
Fixpoint batches_loop (fuel : nat) (net : Network) (scheds : list (list nat))
    (stores : list Store) (batchSize : Z) (locals : option Locals)
    (i : Z) (acc : AggregateResult) (σ : KVState)
  : option (AggregateResult * KVState) :=
  match fuel with
  | O => None
  | S fuel' =>
      if i <? Z.of_nat (length stores)
      then
        let batch := js_slice stores i (i + batchSize) in
        '(r, σ') ← fetchMultipleStoreSpecials net (hd [] scheds) batch locals σ;
        batches_loop fuel' net (tl scheds) stores batchSize locals (i + batchSize)
          (accumulate acc r) σ'
      else Some (acc, σ)
  end.

Definition fetchStoreSpecialsInBatches (fuel : nat) (net : Network)
    (scheds : list (list nat)) (stores : list Store) (batchSize : option Z)
    (locals : option Locals) (σ : KVState) : option (AggregateResult * KVState) :=
  batches_loop fuel net scheds stores (default 10 batchSize) locals 0
    no_results σ.

(** ** JavaScript numbers: IEEE 754 binary64 *)

(** A number is [NaN], an infinity, a zero (each with its sign), or a
    finite non-zero value, held as the rational it denotes. *)
Inductive number :=
| NaN
| Infinity (negative : bool)
| Zero (negative : bool)
| Finite (q : Q).

Definition pow2 (k : Z) : Q := (2 ^ k)%Q.

(** [floor (log2 x)] for a positive rational. *)
Definition ilog2 (x : Q) : Z :=
  let k := Z.log2 (Qnum x) - Z.log2 (Z.pos (Qden x)) in
  if Qle_bool (pow2 k) x then k else k - 1.

(** The exponent of the last significand bit of the binade of [x]:
    53 significand bits, subnormals below 2^-1022. *)
Definition fexp (x : Q) : Z := Z.max (ilog2 (Qabs x) - 52) (-1074).

(** Round to the nearest integer, halves to the even one. *)
Definition rne (x : Q) : Z :=
  let f := Qfloor x in
  match (x - inject_Z f ?= 1 # 2)%Q with
  | Lt => f
  | Gt => f + 1
  | Eq => if Z.even f then f else f + 1
  end.

(** Round to nearest, ties to even, with unbounded exponent above. *)
Definition round64 (x : Q) : Q :=
  if Qeq_bool x 0 then 0%Q
  else Qred (inject_Z (rne (x / pow2 (fexp x))) * pow2 (fexp x)).

(** The result of an operation whose exact value is [x]: overflow gives an
    infinity, underflow to zero keeps the sign, and an exact zero takes the
    sign the operation prescribes. *)
Definition round_number (zero_negative : bool) (x : Q) : number :=
  if Qeq_bool x 0 then Zero zero_negative
  else
    let r := round64 x in
    if Qeq_bool r 0 then Zero (Qle_bool x 0)
    else if Qle_bool (pow2 1024) (Qabs r) then Infinity (Qle_bool x 0)
    else Finite r.

Definition is_negative (q : Q) : bool := negb (Qle_bool 0 q).

(** [x - y] *)
Definition number_sub (x y : number) : number :=
  match x, y with
  | NaN, _ | _, NaN => NaN
  | Infinity a, Infinity b => if Bool.eqb a b then NaN else Infinity a
  | Infinity a, _ => Infinity a
  | _, Infinity b => Infinity (negb b)
  | Zero a, Zero b => Zero (a && negb b)
  | Zero _, Finite q => round_number false (- q)
  | Finite q, Zero _ => round_number false q
  | Finite p, Finite q => round_number false (p - q)
  end.

(** [x / y] *)
Definition number_div (x y : number) : number :=
  match x, y with
  | NaN, _ | _, NaN => NaN
  | Infinity a, Infinity b => NaN
  | Infinity a, Zero b => Infinity (xorb a b)
  | Infinity a, Finite q => Infinity (xorb a (is_negative q))
  | Zero a, Infinity b => Zero (xorb a b)
  | Finite p, Infinity b => Zero (xorb (is_negative p) b)
  | Zero _, Zero _ => NaN
  | Zero a, Finite q => Zero (xorb a (is_negative q))
  | Finite p, Zero b => Infinity (xorb (is_negative p) b)
  | Finite p, Finite q => round_number false (p / q)
  end.

(** [x * y] *)
Definition number_mul (x y : number) : number :=
  match x, y with
  | NaN, _ | _, NaN => NaN
  | Infinity _, Zero _ | Zero _, Infinity _ => NaN
  | Infinity a, Infinity b => Infinity (xorb a b)
  | Infinity a, Finite q => Infinity (xorb a (is_negative q))
  | Finite p, Infinity b => Infinity (xorb (is_negative p) b)
  | Zero a, Zero b => Zero (xorb a b)
  | Zero a, Finite q => Zero (xorb a (is_negative q))
  | Finite p, Zero b => Zero (xorb (is_negative p) b)
  | Finite p, Finite q => round_number false (p * q)
  end.

(** [!x] *)
Definition number_falsy (x : number) : bool :=
  match x with
  | NaN | Zero _ => true
  | _ => false
  end.

(** [x >= y] *)
Definition number_ge (x y : number) : bool :=
  match x, y with
  | NaN, _ | _, NaN => false
  | Infinity a, Infinity b => implb a b
  | Infinity a, _ => negb a
  | _, Infinity b => b
  | Zero _, Zero _ => true
  | Zero _, Finite q => Qle_bool q 0
  | Finite p, Zero _ => Qle_bool 0 p
  | Finite p, Finite q => Qle_bool q p
  end.

(** ** calculateDiscount (lines 340-343) *)

(** [Math.round]: the nearest integer, halves towards +∞; an argument in
    [-0.5, 0) gives -0. *)
Definition Math_round (x : number) : number :=
  match x with
  | Finite q =>
      let n := Qfloor (q + (1 # 2)) in
      if (n =? 0) then Zero (is_negative q) else Finite (inject_Z n)
  | _ => x
  end.

Definition calculateDiscount (regular special : number) : number :=
  if number_falsy regular || number_falsy special || number_ge special regular
  then Zero false
  else Math_round (number_mul (number_div (number_sub regular special) regular)
                              (Finite 100)).

(** An integer literal. *)
Definition num (z : Z) : number :=
  if z =? 0 then Zero false else Finite (inject_Z z).


(** ** Notions used in the statements *)

(** What the cache read of [fetchStoreSpecials] yields in state [σ]. *)
Definition cache_answer (locals : option Locals) (σ : KVState) (storeId : string)
  : option (list Product) :=
  match getKVNamespace locals with
  | Some kv =>
      match get_fault kv (specials_cache_key storeId) with
      | Some _ => None
      | None => fst <$> kv_specials σ !! specials_cache_key storeId
      end
  | None => None
  end.

(** What the cache read of [fetchDutchieStores] yields in state [σ]. *)
Definition stores_cache_answer (locals : option Locals) (σ : KVState)
  : option (list Store) :=
  match getKVNamespace locals with
  | Some kv =>
      match get_fault kv stores_cache_key with
      | Some _ => None
      | None => fst <$> kv_stores σ !! stores_cache_key
      end
  | None => None
  end.

(** What the upstream path of [fetchStoreSpecials] returns for a store. *)
Definition upstream_specials (net : Network) (storeId : string) : list Product :=
  match fetchFromDutchie net SPECIALS_QUERY [("retailerId", storeId)] None with
  | Ok data =>
      match (data ≫= menu) ≫= menu_products with
      | Some products => List.filter has_special_variant products
      | None => []
      end
  | Throw _ => []
  end.

(** What a call of [fetchStoreSpecials] returns when the namespace held [σ]
    at the time the enclosing request began. *)
Definition specials_of (net : Network) (locals : option Locals) (σ : KVState)
    (storeId : string) : list Product :=
  default (upstream_specials net storeId) (cache_answer locals σ storeId).

(** Two states of the namespace that every [fetchStoreSpecials] call
    answers alike. *)
Definition same_view (net : Network) (locals : option Locals) (σ σ0 : KVState) : Prop :=
  forall storeId, specials_of net locals σ storeId = specials_of net locals σ0 storeId.

(** Resumptions a task still needs before it settles. *)
Definition task_weight (t : Task) : nat :=
  match t with
  | AwaitingCache _ => 2
  | AwaitingUpstream _ => 1
  end.

Definition pool_weight (pool : list (nat * Task)) : nat :=
  sum_list_with (fun p => task_weight p.2) pool.

(** A task past its cache read missed the cache: what the upstream path
    returns is what the call returns. *)
Definition task_ready (net : Network) (locals : option Locals) (σ0 : KVState)
    (t : Task) : Prop :=
  match t with
  | AwaitingCache _ => True
  | AwaitingUpstream store =>
      upstream_specials net (store_id store) = specials_of net locals σ0 (store_id store)
  end.

Definition expected_outcome (net : Network) (locals : option Locals) (σ0 : KVState)
    (store : Store) : Settled (Store * list Product) :=
  Fulfilled (store, specials_of net locals σ0 (store_id store)).

(** The aggregate over [stores] when every task settles as expected. *)
Definition aggregate_of (net : Network) (locals : option Locals) (σ0 : KVState)
    (stores : list Store) : AggregateResult :=
  process_results stores (expected_outcome net locals σ0 <$> stores) no_results.

(** The entry a store gets in [storeSpecials], if any. *)
Definition entry_of (net : Network) (locals : option Locals) (σ0 : KVState)
    (store : Store) : option StoreSpecialsResult :=
  let products := specials_of net locals σ0 (store_id store) in
  if (0 <? length products)%nat
  then Some (mkStoreSpecialsResult store products (length products))
  else None.

(** The event-loop invariant: every unsettled task sits at the index of its
    store and is ready; every other slot holds the expected outcome. *)
Definition pool_inv (net : Network) (locals : option Locals) (σ0 : KVState)
    (stores : list Store) (pool : list (nat * Task))
    (slots : list (option (Settled (Store * list Product)))) : Prop :=
  length slots = length stores
  /\ NoDup pool.*1
  /\ (forall i t, (i, t) ∈ pool ->
        stores !! i = Some (task_store t) /\ task_ready net locals σ0 t)
  /\ (forall i s, stores !! i = Some s -> i ∉ pool.*1 ->
        slots !! i = Some (Some (expected_outcome net locals σ0 s))).

(** Where the loop of [fetchMultipleStoreSpecials] puts the store of a
    settled task. *)
Inductive Placement := InStoreSpecials | InErrors | InNeither.

Definition placement (result : Settled (Store * list Product)) : Placement :=
  match result with
  | Fulfilled (_, products) =>
      if (0 <? length products)%nat then InStoreSpecials else InNeither
  | Rejected _ => InErrors
  end.

Definition placement_eqb (a b : Placement) : bool :=
  match a, b with
  | InStoreSpecials, InStoreSpecials => true
  | InErrors, InErrors => true
  | InNeither, InNeither => true
  | _, _ => false
  end.

(** The stores placed at [c], in input order. *)
Fixpoint placed_at (c : Placement) (tags : list Placement) (stores : list Store)
  : list Store :=
  match tags, stores with
  | tag :: tags', store :: stores' =>
      if placement_eqb tag c
      then store :: placed_at c tags' stores'
      else placed_at c tags' stores'
  | _, _ => []
  end.

(** How the task of [store] settles when it is the only one using the
    namespace, which holds [σ]. *)
Definition lone_outcome (net : Network) (locals : option Locals) (σ : KVState)
    (store : Store) : Settled (Store * list Product) :=
  settle_with store
    (fetchStoreSpecials net (store_id store) (store_name store) locals σ).1.

(** The placement of every input store, by the outcome of its task. *)
Definition placements (net : Network) (locals : option Locals) (σ : KVState)
    (stores : list Store) : list Placement :=
  placement <$> (lone_outcome net locals σ <$> stores).

(** The rational value of a finite number. *)
Definition value_of (x : number) : Q :=
  match x with
  | Finite q => q
  | _ => 0%Q
  end.

(** A [Finite] number is a binary64 value: it is not zero, rounding leaves
    it alone and it is below the overflow threshold. *)
Definition binary64 (x : number) : Prop :=
  match x with
  | Finite q => ~ (q == 0)%Q /\ (round64 q == q)%Q /\ (Qabs q < pow2 1024)%Q
  | _ => True
  end.

Definition is_finite (x : number) : Prop :=
  match x with
  | Zero _ | Finite _ => True
  | _ => False
  end.

(** [x >= 0] *)
Definition nonnegative (x : number) : Prop := number_ge x (Zero false) = true.

(** [0 <= x && x <= 100] *)
Definition between_0_and_100 (x : number) : bool :=
  number_ge x (Zero false) && number_ge (Finite 100) x.

(** A positive zero, or a positive finite number up to [hi]. *)
Definition in_range (hi : Q) (x : number) : Prop :=
  match x with
  | Zero false => True
  | Finite q => (0 < q)%Q /\ (q <= hi)%Q
  | _ => False
  end.

(** ** Sample inputs *)

Definition empty_kv : KVState := mkKVState ∅ ∅.

Definition healthy_namespace : KVNamespace :=
  mkKVNamespace (fun _ => None) (fun _ => None).

Definition locals_with_cache : option Locals :=
  Some (mkLocals (Some (mkRuntime (Some (mkRuntimeEnv (Some healthy_namespace)))))).

Definition store_A : Store := mkStore "a" "A" "1 Main St" "555-0001".
Definition store_B : Store := mkStore "b" "B" "2 Main St" "555-0002".
Definition store_C : Store := mkStore "c" "C" "3 Main St" "555-0003".

Definition discounted_variant : ProductVariant :=
  mkVariant "v1" "1g" 1000 (Some 750) 5.
Definition regular_variant : ProductVariant :=
  mkVariant "v2" "3.5g" 3000 None 2.
Definition marked_up_variant : ProductVariant :=
  mkVariant "v3" "1g" 1000 (Some 1200) 1.
Definition giveaway_variant : ProductVariant :=
  mkVariant "v4" "1g" 1000 (Some 0) 1.

Definition simple_product (pid : string) (vs : list ProductVariant) : Product :=
  mkProduct pid pid None "FLOWER" None None None None None (Some vs).

Definition product_on_sale : Product := simple_product "p1" [discounted_variant].
Definition product_mixed : Product :=
  simple_product "p2" [regular_variant; discounted_variant].
Definition product_regular : Product := simple_product "p3" [regular_variant].
Definition product_marked_up : Product := simple_product "p4" [marked_up_variant].
Definition product_giveaway : Product := simple_product "p5" [giveaway_variant].

Definition menu_response (ps : list Product) : Response :=
  mkResponse 200 "{...}" (Some (mkBody None (Some (mkData None (Some (mkMenu (Some ps))))))).

Definition unavailable_response : Response :=
  mkResponse 503 "Service Unavailable" None.

Definition graphql_error_response : Response :=
  mkResponse 200 "{...}"
    (Some (mkBody (Some [mkGraphQLErrorItem "Unauthorized";
                         mkGraphQLErrorItem "Retailer not found"]) None)).



(** Store A has two specials among three products, store B never answers,
    store C answers with a menu that has no special. *)
Definition scenario_net : Network :=
  fun query variables =>
    match query, variables with
    | SPECIALS_QUERY, [(_, retailerId)] =>
        if String.eqb retailerId "a"
        then Responds 120 (menu_response [product_on_sale; product_regular; product_mixed])
        else if String.eqb retailerId "b" then Hangs
        else Responds 80 (menu_response [product_regular])
    | _, _ => Hangs
    end.

Definition failing_net : Network :=
  fun query _ =>
    match query with
    | STORES_QUERY => Responds 30 unavailable_response
    | SPECIALS_QUERY => Responds 30 graphql_error_response
    end.

Definition marked_up_net : Network :=
  fun _ _ => Responds 10 (menu_response [product_marked_up]).

Definition giveaway_net : Network :=
  fun _ _ => Responds 10 (menu_response [product_giveaway]).

Definition numbered_store (n : nat) : Store :=
  mkStore ("s" +:+ pretty n) ("Store " +:+ pretty n) "" "".

Definition twenty_five_stores : list Store := map numbered_store (seq 0 25).

Definition stores_response (l : list Store) : Response :=
  mkResponse 200 "{...}" (Some (mkBody None (Some (mkData (Some l) None)))).

Definition stores_net : Network :=
  fun query _ =>
    match query with
    | STORES_QUERY => Responds 40 (stores_response [store_A; store_B; store_C])
    | SPECIALS_QUERY => Hangs
    end.

Definition broken_namespace : KVNamespace :=
  mkKVNamespace (fun _ => Some (Error "KV unavailable"))
                (fun _ => Some (Error "KV unavailable")).

Definition locals_with_broken_cache : option Locals :=
  Some (mkLocals (Some (mkRuntime (Some (mkRuntimeEnv (Some broken_namespace)))))).

(** * Cloudinary image URLs: [src/lib/image-utils.ts]

    URLs are strings of bytes (UTF-8); the two regular expressions of
    [transformToWebP] are matched by the functions below, group by group. *)

Inductive ImageFormat := format_webp | format_avif | format_auto.
Inductive ImageQuality := quality_auto | quality_number (q : Z).
Inductive ImageCrop := crop_fill | crop_fit | crop_scale | crop_crop.

Record CloudinaryTransformOptions := mkTransformOptions {
  width : option Z;
  height : option Z;
  format : option ImageFormat;
  quality : option ImageQuality;
  crop : option ImageCrop
}.

Definition no_options : CloudinaryTransformOptions :=
  mkTransformOptions None None None None None.

Definition format_name (f : ImageFormat) : string :=
  match f with
  | format_webp => "webp"
  | format_avif => "avif"
  | format_auto => "auto"
  end.

Definition quality_name (q : ImageQuality) : string :=
  match q with
  | quality_auto => "auto"
  | quality_number n => pretty n
  end.

Definition crop_name (c : ImageCrop) : string :=
  match c with
  | crop_fill => "fill"
  | crop_fit => "fit"
  | crop_scale => "scale"
  | crop_crop => "crop"
  end.

(** [if (n)] on an optional number. *)
Definition number_truthy (n : option Z) : bool :=
  match n with
  | Some z => negb (z =? 0)
  | None => false
  end.

(** [String.prototype.includes] *)
Fixpoint includes (s sub : string) : bool :=
  String.prefix sub s
  || match s with
     | EmptyString => false
     | String _ s' => includes s' sub
     end.

(** [s] without its prefix [p], when it has it. *)
Fixpoint strip_prefix (p s : string) : option string :=
  match p, s with
  | EmptyString, _ => Some s
  | String a p', String b s' => if Ascii.eqb a b then strip_prefix p' s' else None
  | String _ _, EmptyString => None
  end.

(** The longest prefix of characters satisfying [P], and the rest:
    how a greedy [[...]+] matches when what follows cannot be in the class. *)
Fixpoint span (P : ascii -> bool) (s : string) : string * string :=
  match s with
  | EmptyString => (EmptyString, EmptyString)
  | String c s' =>
      if P c
      then let '(a, b) := span P s' in (String c a, b)
      else (EmptyString, s)
  end.

Definition not_slash (c : ascii) : bool := negb (Ascii.eqb c "/").

(** [\d] *)
Definition is_digit (c : ascii) : bool :=
  (48 <=? nat_of_ascii c)%nat && (nat_of_ascii c <=? 57)%nat.

(** Whether [s] has a character [.] does not match: LF, CR, U+2028 or
    U+2029 (the last two as the bytes E2 80 A8 and E2 80 A9). *)
Fixpoint has_line_terminator (s : string) : bool :=
  match s with
  | EmptyString => false
  | String c s' =>
      (nat_of_ascii c =? 10)%nat || (nat_of_ascii c =? 13)%nat
      || match s' with
         | String c1 (String c2 _) =>
             (nat_of_ascii c =? 226)%nat && (nat_of_ascii c1 =? 128)%nat
             && ((nat_of_ascii c2 =? 168)%nat || (nat_of_ascii c2 =? 169)%nat)
         | _ => false
         end
      || has_line_terminator s'
  end.

(** [(.+)$] *)
Definition to_end_of_line (s : string) : bool :=
  negb (String.eqb s "") && negb (has_line_terminator s).

(** [^(https:\/\/res\.cloudinary\.com\/[^\/]+\/image\/upload\/)]: the
    matched group and what follows it. *)
Definition match_upload_base (url : string) : option (string * string) :=
  rest1 ← strip_prefix "https://res.cloudinary.com/" url;
  let '(cloud, rest2) := span not_slash rest1 in
  if String.eqb cloud "" then None
  else
    rest3 ← strip_prefix "/image/upload/" rest2;
    Some ("https://res.cloudinary.com/" +:+ cloud +:+ "/image/upload/", rest3).

(** [url.match(cloudinaryPattern)]: groups 1, 2 and 3. *)
Definition match_cloudinaryPattern (url : string) : option (string * string * string) :=
  '(base, rest) ← match_upload_base url;
  rest1 ← strip_prefix "v" rest;
  let '(digits, rest2) := span is_digit rest1 in
  if String.eqb digits "" then None
  else
    path ← strip_prefix "/" rest2;
    if to_end_of_line path then Some (base, "v" +:+ digits +:+ "/", path) else None.

(** [url.match(simplePattern)]: groups 1 and 2. *)
Definition match_simplePattern (url : string) : option (string * string) :=
  '(base, path) ← match_upload_base url;
  if to_end_of_line path then Some (base, path) else None.

(** Lines 43-61: the transformation string. *)
Definition transformString (options : CloudinaryTransformOptions) : string :=
  let format := default format_webp (format options) in
  let quality := default quality_auto (quality options) in
  let crop := default crop_fill (crop options) in
  let transformations :=
    ((if number_truthy (width options)
      then ["w_" +:+ pretty (default 0 (width options))] else [])
     ++ (if number_truthy (height options)
         then ["h_" +:+ pretty (default 0 (height options))] else [])
     ++ (if number_truthy (width options) || number_truthy (height options)
         then ["c_" +:+ crop_name crop] else [])
     ++ ["f_" +:+ format_name format]
     ++ ["q_" +:+ quality_name quality])%list in
  join "," transformations.

(** Lines 29-85. *)
Definition transformToWebP (url : option string)
    (options : option CloudinaryTransformOptions) : option string :=
  match url with
  | None => None
  | Some url =>
      if String.eqb url "" then None
      else if negb (includes url "res.cloudinary.com") then Some url
      else
        let transformString := transformString (default no_options options) in
        match match_cloudinaryPattern url with
        | Some (base, version, path) =>
            Some (base +:+ transformString +:+ "/" +:+ version +:+ path)
        | None =>
            match match_simplePattern url with
            | Some (base, path) => Some (base +:+ transformString +:+ "/" +:+ path)
            | None => Some url
            end
        end
  end.

Definition dimensions (w h : Z) : option CloudinaryTransformOptions :=
  Some (mkTransformOptions (Some w) (Some h) None None None).

Definition imageTransforms_card (url : option string) := transformToWebP url (dimensions 400 192).
Definition imageTransforms_hero (url : option string) := transformToWebP url (dimensions 800 400).
Definition imageTransforms_thumbnail (url : option string) := transformToWebP url (dimensions 200 100).
Definition imageTransforms_large (url : option string) := transformToWebP url (dimensions 1200 600).
Definition imageTransforms_auto (url : option string) := transformToWebP url None.

Definition example_url : string :=
  "https://res.cloudinary.com/dcltaajwj/image/upload/v1759857089/mintdeals/image.jpg".


(** Characters that cannot take part in a line terminator. *)
Definition plain_char (c : ascii) : bool :=
  negb ((nat_of_ascii c =? 10)%nat || (nat_of_ascii c =? 13)%nat
        || (nat_of_ascii c =? 226)%nat).

Definition upload_prefix : string := "https://res.cloudinary.com/".
Definition upload_marker : string := "/image/upload/".

Definition plain (s : string) : Prop :=
  forallb plain_char (String.list_ascii_of_string s) = true.

(** * Properties *)

(** ** The remote fetch client *)

Lemma fetchFromDutchie_unparsable net query variables timeoutMs response :
  fetchWithTimeout (net query variables) (default API_TIMEOUT_MS timeoutMs) = Ok response ->
  ok response = true -> parsed response = None ->
  fetchFromDutchie net query variables timeoutMs = Throw SyntaxError.
Proof.
  intros Hresp Hok Hparsed. unfold fetchFromDutchie.
  rewrite Hresp. simpl. rewrite Hok, Hparsed. reflexivity.
Qed.





(** A request that never answers is abandoned at the timeout budget. *)
Lemma fetchFromDutchie_timeout net query variables :
  net query variables = Hangs ->
  fetchFromDutchie net query variables None =
  Throw (Error "Request timeout after 10000ms").
Proof. intros H. unfold fetchFromDutchie. rewrite H. reflexivity. Qed.

(** ** Cache-aside fetches *)

Lemma readSpecialsCache_answer locals σ storeId :
  readSpecialsCache (getKVNamespace locals) (specials_cache_key storeId) σ =
  (Ok (cache_answer locals σ storeId), σ).
Proof.
  unfold readSpecialsCache, cache_answer.
  destruct (getKVNamespace locals) as [kv|]; [|reflexivity].
  unfold try_catch, kv_get_specials.
  destruct (get_fault kv (specials_cache_key storeId)); reflexivity.
Qed.

Lemma write_back_never_throws kv cacheKey value σ :
  exists σ',
    try_catch (kv_put_specials kv cacheKey value CACHE_TTL_SECONDS)
              (fun _ => ret tt) σ = (Ok tt, σ')
    /\ (σ' = σ
        \/ put_fault kv cacheKey = None
           /\ σ' = mkKVState (kv_stores σ)
                     (<[cacheKey := (value, CACHE_TTL_SECONDS)]> (kv_specials σ))).
Proof.
  unfold try_catch, kv_put_specials, ret.
  destruct (put_fault kv cacheKey); eexists; split; eauto.
Qed.

(** The upstream path always returns, with [upstream_specials]; the only
    trace it can leave is the write-back of that very value. *)
Lemma fetchSpecialsFromApi_returns net storeId kv cacheKey σ :
  exists σ',
    fetchSpecialsFromApi net storeId kv cacheKey σ =
      (Ok (upstream_specials net storeId), σ')
    /\ (σ' = σ
        \/ exists ns, kv = Some ns /\ put_fault ns cacheKey = None
           /\ σ' = mkKVState (kv_stores σ)
                 (<[cacheKey := (upstream_specials net storeId, CACHE_TTL_SECONDS)]>
                    (kv_specials σ))).
Proof.
  unfold fetchSpecialsFromApi, upstream_specials, try_catch at 1, bind at 1, lift.
  destruct (fetchFromDutchie net SPECIALS_QUERY [("retailerId", storeId)] None)
    as [data|e]; [|eexists; split; [reflexivity | left; reflexivity]].
  destruct ((data ≫= menu) ≫= menu_products) as [products|];
    [|eexists; split; [reflexivity | left; reflexivity]].
  unfold bind. destruct kv as [ns|].
  - destruct (write_back_never_throws ns cacheKey
                (List.filter has_special_variant products) σ) as (σ' & Hput & Hσ').
    rewrite Hput. exists σ'. split; [reflexivity|].
    destruct Hσ' as [->|[Hfault ->]]; [left; reflexivity|].
    right. exists ns. auto.
  - exists σ. split; [reflexivity | left; reflexivity].
Qed.

Lemma fetchStoreSpecials_returns net storeId storeName locals σ :
  exists σ',
    fetchStoreSpecials net storeId storeName locals σ =
      (Ok (specials_of net locals σ storeId), σ').
Proof.
  unfold fetchStoreSpecials, specials_of, bind.
  rewrite readSpecialsCache_answer.
  destruct (cache_answer locals σ storeId) as [cached|]; simpl.
  - exists σ. reflexivity.
  - destruct (fetchSpecialsFromApi_returns net storeId (getKVNamespace locals)
                (specials_cache_key storeId) σ) as (σ' & H & _).
    exists σ'. exact H.
Qed.

Lemma readStoresCache_answer locals σ :
  match getKVNamespace locals with
  | Some kv => try_catch (kv_get_stores kv stores_cache_key) (fun _ => ret None)
  | None => ret None
  end σ = (Ok (stores_cache_answer locals σ), σ).
Proof.
  unfold stores_cache_answer.
  destruct (getKVNamespace locals) as [kv|]; [|reflexivity].
  unfold try_catch, kv_get_stores.
  destruct (get_fault kv stores_cache_key); reflexivity.
Qed.

Lemma fetchDutchieStores_never_throws net locals σ :
  exists stores σ', fetchDutchieStores net locals σ = (Ok stores, σ').
Proof.
  unfold fetchDutchieStores. unfold bind at 1.
  rewrite readStoresCache_answer.
  destruct (stores_cache_answer locals σ) as [cached|].
  - eexists _, _. reflexivity.
  - unfold try_catch at 1, bind at 1, lift.
    destruct (fetchFromDutchie net STORES_QUERY [] None) as [data|e];
      [|eexists _, _; reflexivity].
    unfold bind. destruct (getKVNamespace locals) as [kv|].
    + destruct (0 <? length (default [] (data ≫= retailers)))%nat.
      * unfold try_catch, kv_put_stores, ret.
        destruct (put_fault kv stores_cache_key); eexists _, _; reflexivity.
      * eexists _, _. reflexivity.
    + eexists _, _. reflexivity.
Qed.

(** C5: when the upstream call of [fetchDutchieStores] fails, whatever the
    failure, it returns normally and leaves the cache as it was, and
    likewise, on its own, [fetchStoreSpecials] when its upstream call
    fails; the sequence returned is empty unless the cache answered before
    the upstream was asked. *)
Theorem upstream_failure_absorbed net locals σ storeId storeName :
  (forall e,
      fetchFromDutchie net STORES_QUERY [] None = Throw e ->
      exists stores,
        fetchDutchieStores net locals σ = (Ok stores, σ)
        /\ (stores_cache_answer locals σ = None -> stores = []))
  /\ (forall e,
        fetchFromDutchie net SPECIALS_QUERY [("retailerId", storeId)] None = Throw e ->
        exists products,
          fetchStoreSpecials net storeId storeName locals σ = (Ok products, σ)
          /\ (cache_answer locals σ storeId = None -> products = [])).
Proof.
  split.
  - intros e Hstores.
    unfold fetchDutchieStores. unfold bind at 1.
    rewrite readStoresCache_answer.
    destruct (stores_cache_answer locals σ) as [cached|].
    + exists cached. split; [reflexivity | discriminate].
    + exists []. split; [|reflexivity].
      unfold try_catch, bind, lift. rewrite Hstores. reflexivity.
  - intros e Hspecials.
    unfold fetchStoreSpecials, bind.
    rewrite readSpecialsCache_answer.
    destruct (cache_answer locals σ storeId) as [cached|].
    + exists cached. split; [reflexivity | discriminate].
    + exists []. split; [|reflexivity].
      unfold fetchSpecialsFromApi, try_catch, bind, lift.
      rewrite Hspecials. reflexivity.
Qed.

Lemma upstream_failure_absorbed_witness :
  (exists stores,
      fetchDutchieStores failing_net locals_with_cache empty_kv = (Ok stores, empty_kv)
      /\ (stores_cache_answer locals_with_cache empty_kv = None -> stores = []))
  /\ (exists products,
        fetchStoreSpecials failing_net "a" "A" locals_with_cache empty_kv
          = (Ok products, empty_kv)
        /\ (cache_answer locals_with_cache empty_kv "a" = None -> products = []))
  /\ (exists products,
        fetchStoreSpecials stores_net "b" "B" locals_with_cache empty_kv
          = (Ok products, empty_kv)
        /\ (cache_answer locals_with_cache empty_kv "b" = None -> products = [])).
Proof.
  split; [|split].
  - apply (proj1 (upstream_failure_absorbed failing_net locals_with_cache empty_kv
                    "a" "A") (Error "API Error: 503 - Service Unavailable")).
    reflexivity.
  - apply (proj2 (upstream_failure_absorbed failing_net locals_with_cache empty_kv
                    "a" "A") (Error "GraphQL Error: Unauthorized, Retailer not found")).
    reflexivity.
  - apply (proj2 (upstream_failure_absorbed stores_net locals_with_cache empty_kv
                    "b" "B") (Error "Request timeout after 10000ms")).
    reflexivity.
Defined.

Lemma has_special_variant_iff (p : Product) :
  has_special_variant p = true <->
  exists vs v sp,
    variants p = Some vs /\ In v vs /\ specialPriceRec v = Some sp
    /\ sp <> 0 /\ sp <> priceRec v.
Proof.
  unfold has_special_variant. split.
  - destruct (variants p) as [vs|]; [|discriminate].
    intros H. apply existsb_exists in H as (v & Hin & Hv).
    unfold variant_on_special in Hv.
    destruct (specialPriceRec v) as [sp|] eqn:Hsp; [|discriminate].
    apply andb_true_iff in Hv as [H0 H1].
    apply negb_true_iff, Z.eqb_neq in H0, H1.
    exists vs, v, sp. auto.
  - intros (vs & v & sp & -> & Hin & Hsp & H0 & H1).
    apply existsb_exists. exists v. split; [exact Hin|].
    unfold variant_on_special. rewrite Hsp.
    apply Z.eqb_neq in H0, H1. rewrite H0, H1. reflexivity.
Qed.

(** C2, as the code has it: on a cache miss, [fetchStoreSpecials] returns
    the upstream product list filtered, in order, to the products having at
    least one variant whose special price is present, is not zero and
    differs from that variant's regular price. *)
Theorem fetchStoreSpecials_retains net storeId storeName locals σ data products :
  cache_answer locals σ storeId = None ->
  fetchFromDutchie net SPECIALS_QUERY [("retailerId", storeId)] None = Ok data ->
  (data ≫= menu) ≫= menu_products = Some products ->
  exists σ',
    fetchStoreSpecials net storeId storeName locals σ =
      (Ok (List.filter has_special_variant products), σ')
    /\ forall p,
        In p (List.filter has_special_variant products) <->
        In p products
        /\ exists vs v sp,
            variants p = Some vs /\ In v vs /\ specialPriceRec v = Some sp
            /\ sp <> 0 /\ sp <> priceRec v.
Proof.
  intros Hmiss Hdata Hproducts.
  destruct (fetchStoreSpecials_returns net storeId storeName locals σ) as (σ' & H).
  exists σ'. split.
  - rewrite H. unfold specials_of, upstream_specials.
    rewrite Hmiss, Hdata, Hproducts. reflexivity.
  - intros p. rewrite filter_In, has_special_variant_iff. reflexivity.
Qed.

Lemma fetchStoreSpecials_retains_witness :
  exists σ',
    fetchStoreSpecials scenario_net "a" "A" None empty_kv =
      (Ok (List.filter has_special_variant
             [product_on_sale; product_regular; product_mixed]), σ')
    /\ forall p,
        In p (List.filter has_special_variant
                [product_on_sale; product_regular; product_mixed]) <->
        In p [product_on_sale; product_regular; product_mixed]
        /\ exists vs v sp,
            variants p = Some vs /\ In v vs /\ specialPriceRec v = Some sp
            /\ sp <> 0 /\ sp <> priceRec v.
Proof.
  apply (fetchStoreSpecials_retains scenario_net "a" "A" None empty_kv
           (Some (mkData None (Some (mkMenu
              (Some [product_on_sale; product_regular; product_mixed])))))).
  - reflexivity.
  - reflexivity.
  - reflexivity.
Defined.

(** C2, as stated, fails in both directions: a product whose only variant
    carries a special price above its regular price (1200 against 1000) is
    retained although none of its variants is strictly cheaper on special;
    and a product whose only variant carries a special price of 0, present
    and strictly lower than its regular price of 1000, is dropped. *)
Lemma fetchStoreSpecials_filter_not_strictly_lower :
  (fst (fetchStoreSpecials marked_up_net "m" "M" None empty_kv) = Ok [product_marked_up]
   /\ ~ (exists vs v sp,
           variants product_marked_up = Some vs /\ In v vs
           /\ specialPriceRec v = Some sp /\ sp < priceRec v))
  /\ (fst (fetchStoreSpecials giveaway_net "g" "G" None empty_kv) = Ok []
      /\ variants product_giveaway = Some [giveaway_variant]
      /\ specialPriceRec giveaway_variant = Some 0
      /\ 0 < priceRec giveaway_variant).
Proof.
  split.
  - split; [reflexivity|].
    intros (vs & v & sp & Hvs & Hin & Hsp & Hlt).
    injection Hvs as <-. destruct Hin as [<-|[]].
    simpl in Hsp. injection Hsp as <-. simpl in Hlt. lia.
  - repeat split.
Qed.

(** The write-back does not look at the length of the filtered list. *)
Lemma fetchStoreSpecials_writes_back net storeId storeName locals σ ns data products :
  getKVNamespace locals = Some ns ->
  put_fault ns (specials_cache_key storeId) = None ->
  cache_answer locals σ storeId = None ->
  fetchFromDutchie net SPECIALS_QUERY [("retailerId", storeId)] None = Ok data ->
  (data ≫= menu) ≫= menu_products = Some products ->
  kv_specials (snd (fetchStoreSpecials net storeId storeName locals σ))
    !! specials_cache_key storeId
  = Some (List.filter has_special_variant products, CACHE_TTL_SECONDS).
Proof.
  intros Hns Hput Hmiss Hdata Hproducts.
  unfold fetchStoreSpecials, bind. rewrite readSpecialsCache_answer, Hmiss.
  unfold fetchSpecialsFromApi, try_catch, bind, lift.
  rewrite Hdata, Hproducts, Hns. unfold kv_put_specials. rewrite Hput.
  simpl. apply lookup_insert_eq.
Qed.

(** The store list, by contrast, is written only when it is not empty. *)
Lemma fetchDutchieStores_skips_empty net locals σ data :
  stores_cache_answer locals σ = None ->
  fetchFromDutchie net STORES_QUERY [] None = Ok data ->
  default [] (data ≫= retailers) = [] ->
  fetchDutchieStores net locals σ = (Ok [], σ).
Proof.
  intros Hmiss Hdata Hempty.
  unfold fetchDutchieStores. unfold bind at 1.
  rewrite readStoresCache_answer, Hmiss.
  unfold try_catch, bind, lift. rewrite Hdata, Hempty. simpl.
  destruct (getKVNamespace locals); reflexivity.
Qed.

(** C8, evaluated: with the cache available and empty, a store whose menu
    has no special gets the empty array written under its key. *)
Theorem fetchStoreSpecials_caches_empty_result :
  kv_specials empty_kv !! specials_cache_key "c" = None
  /\ fst (fetchStoreSpecials scenario_net "c" "C" locals_with_cache empty_kv) = Ok []
  /\ kv_specials (snd (fetchStoreSpecials scenario_net "c" "C" locals_with_cache empty_kv))
       !! specials_cache_key "c" = Some ([], CACHE_TTL_SECONDS).
Proof. repeat split; vm_compute; reflexivity. Qed.

(** ** The settle-all join *)

Lemma specials_cache_key_inj a b :
  specials_cache_key a = specials_cache_key b -> a = b.
Proof. unfold specials_cache_key. simpl. intros H. injection H. auto. Qed.

Lemma same_view_refl net locals σ : same_view net locals σ σ.
Proof. intros id. reflexivity. Qed.

Lemma same_view_trans net locals σ1 σ2 σ3 :
  same_view net locals σ1 σ2 -> same_view net locals σ2 σ3 -> same_view net locals σ1 σ3.
Proof. intros H1 H2 id. rewrite H1. apply H2. Qed.

Lemma specials_of_after_write net locals σ storeId storeId' :
  specials_of net locals σ storeId = upstream_specials net storeId ->
  specials_of net locals
    (mkKVState (kv_stores σ)
       (<[specials_cache_key storeId := (upstream_specials net storeId, CACHE_TTL_SECONDS)]>
          (kv_specials σ))) storeId'
  = specials_of net locals σ storeId'.
Proof.
  intros Hup. unfold specials_of, cache_answer in *. simpl.
  destruct (getKVNamespace locals) as [kv|]; [|reflexivity].
  destruct (decide (storeId' = storeId)) as [->|Hne].
  - rewrite lookup_insert_eq.
    destruct (get_fault kv (specials_cache_key storeId)); [reflexivity|].
    simpl. simpl in Hup. symmetry. exact Hup.
  - rewrite lookup_insert_ne; [reflexivity|].
    intros Heq. apply Hne. symmetry. apply specials_cache_key_inj. exact Heq.
Qed.

(** A task resumed twice in a row, with nothing in between, is one call of
    [fetchStoreSpecials] followed by [.then]. *)
Lemma task_runs_fetchStoreSpecials net locals store σ :
  let call := fetchStoreSpecials net (store_id store) (store_name store) locals σ in
  match task_step net locals (AwaitingCache store) σ with
  | (inr r, σ') => (r, σ') = (settle_with store (fst call), snd call)
  | (inl t, σ') =>
      t = AwaitingUpstream store /\ σ' = σ
      /\ task_step net locals t σ' = (inr (settle_with store (fst call)), snd call)
  end.
Proof.
  simpl. unfold fetchStoreSpecials, bind.
  rewrite readSpecialsCache_answer.
  destruct (cache_answer locals σ (store_id store)) as [cached|]; [reflexivity|].
  repeat split. simpl.
  destruct (fetchSpecialsFromApi net (store_id store) (getKVNamespace locals)
              (specials_cache_key (store_id store)) σ) as [r σ'].
  reflexivity.
Qed.

Section Pool.
Variables (net : Network) (locals : option Locals) (σ0 : KVState).

Lemma task_step_sound t σ :
  same_view net locals σ σ0 -> task_ready net locals σ0 t ->
  exists out σ',
    task_step net locals t σ = (out, σ')
    /\ same_view net locals σ' σ0
    /\ match out with
       | inl t' => task_store t' = task_store t
                   /\ task_ready net locals σ0 t'
                   /\ (task_weight t' < task_weight t)%nat
       | inr r => r = expected_outcome net locals σ0 (task_store t)
       end.
Proof.
  intros Hview Hready. destruct t as [store|store]; simpl.
  - rewrite readSpecialsCache_answer.
    pose proof (Hview (store_id store)) as Hid.
    unfold specials_of in Hid.
    destruct (cache_answer locals σ (store_id store)) as [cached|] eqn:Hc.
    + eexists _, σ. split; [reflexivity|]. split; [exact Hview|].
      unfold expected_outcome, specials_of. simpl in Hid. rewrite <- Hid. reflexivity.
    + eexists _, σ. split; [reflexivity|]. split; [exact Hview|].
      simpl. split; [reflexivity|]. split; [|lia]. exact Hid.
  - destruct (fetchSpecialsFromApi_returns net (store_id store) (getKVNamespace locals)
                (specials_cache_key (store_id store)) σ) as (σ' & Hrun & Hσ').
    rewrite Hrun. eexists _, σ'. split; [reflexivity|].
    simpl in Hready. split.
    + destruct Hσ' as [->|(ns & _ & _ & ->)]; [exact Hview|].
      intros id. rewrite specials_of_after_write; [apply Hview|].
      rewrite Hview. symmetry. exact Hready.
    + simpl. unfold expected_outcome. rewrite Hready. reflexivity.
Qed.

Variable stores : list Store.

Lemma pool_inv_done slots :
  pool_inv net locals σ0 stores [] slots ->
  slots = (fun s => Some (expected_outcome net locals σ0 s)) <$> stores.
Proof.
  intros (Hlen & _ & _ & Hslots).
  apply list_eq. intros i. rewrite list_lookup_fmap.
  destruct (stores !! i) as [s|] eqn:Hs; simpl.
  - apply Hslots; [exact Hs|]. simpl. apply not_elem_of_nil.
  - apply lookup_ge_None. rewrite Hlen. apply lookup_ge_None. exact Hs.
Qed.

Lemma pool_weight_pos pool : pool <> [] -> (0 < pool_weight pool)%nat.
Proof.
  destruct pool as [|[i t] pool]; [congruence|]. intros _.
  unfold pool_weight. simpl. destruct t; simpl; lia.
Qed.

Lemma pool_weight_split l1 (p : nat * Task) l2 :
  pool_weight (l1 ++ p :: l2) = (pool_weight (l1 ++ l2) + task_weight p.2)%nat.
Proof. unfold pool_weight. rewrite !sum_list_with_app. simpl. lia. Qed.

Lemma pool_inv_suspend l1 l2 i t t' slots :
  pool_inv net locals σ0 stores (l1 ++ (i, t) :: l2) slots ->
  task_store t' = task_store t -> task_ready net locals σ0 t' ->
  pool_inv net locals σ0 stores (l1 ++ (i, t') :: l2) slots.
Proof.
  intros (Hlen & Hnd & Hpool & Hslots) Hstore Hready.
  split; [exact Hlen|]. split; [|split].
  - rewrite fmap_app, fmap_cons in *. exact Hnd.
  - intros j u Hin. apply elem_of_app in Hin as [Hin|Hin].
    + apply Hpool. apply elem_of_app. left. exact Hin.
    + apply elem_of_cons in Hin as [Heq|Hin].
      * injection Heq as -> ->. rewrite Hstore. split; [|exact Hready].
        apply (Hpool i t). apply elem_of_app. right. left.
      * apply Hpool. apply elem_of_app. right. right. exact Hin.
  - intros j s Hs Hj. apply Hslots; [exact Hs|].
    rewrite fmap_app, fmap_cons in *. exact Hj.
Qed.

Lemma pool_inv_settle l1 l2 i t slots :
  pool_inv net locals σ0 stores (l1 ++ (i, t) :: l2) slots ->
  pool_inv net locals σ0 stores (l1 ++ l2)
    (<[i := Some (expected_outcome net locals σ0 (task_store t))]> slots).
Proof.
  intros (Hlen & Hnd & Hpool & Hslots).
  rewrite fmap_app, fmap_cons in Hnd. simpl in Hnd.
  apply NoDup_app in Hnd as (Hnd1 & Hdisj & Hnd2).
  apply NoDup_cons in Hnd2 as (Hi2 & Hnd2).
  assert (Hi : stores !! i = Some (task_store t)).
  { apply (Hpool i t). apply elem_of_app. right. left. }
  split; [rewrite length_insert; exact Hlen|]. split; [|split].
  - rewrite fmap_app. apply NoDup_app. split; [exact Hnd1|]. split; [|exact Hnd2].
    intros x Hx1 Hx2. apply (Hdisj x Hx1). right. exact Hx2.
  - intros j u Hin. apply Hpool.
    apply elem_of_app in Hin as [Hin|Hin]; apply elem_of_app;
      [left | right; right]; exact Hin.
  - intros j s Hs Hj. rewrite fmap_app in Hj.
    destruct (decide (j = i)) as [->|Hne].
    + rewrite list_lookup_insert_eq.
      * rewrite Hi in Hs. injection Hs as ->. reflexivity.
      * rewrite Hlen. apply lookup_lt_Some in Hi. exact Hi.
    + rewrite list_lookup_insert_ne by congruence.
      apply Hslots; [exact Hs|].
      rewrite fmap_app, fmap_cons. simpl.
      intros Hin. apply Hj.
      apply elem_of_app in Hin as [Hin|Hin]; apply elem_of_app; [left; exact Hin|].
      apply elem_of_cons in Hin as [Heq|Hin]; [congruence | right; exact Hin].
Qed.

Lemma run_pool_sound fuel :
  forall sched pool slots σ,
    same_view net locals σ σ0 -> pool_inv net locals σ0 stores pool slots ->
    (pool_weight pool <= fuel)%nat ->
    exists σ',
      run_pool net locals fuel sched pool slots σ =
        ((fun s => Some (expected_outcome net locals σ0 s)) <$> stores, σ')
      /\ same_view net locals σ' σ0.
Proof.
  induction fuel as [|fuel IH]; intros sched pool slots σ Hview Hinv Hweight.
  - destruct pool as [|p pool].
    + exists σ. simpl. rewrite (pool_inv_done slots Hinv). auto.
    + pose proof (pool_weight_pos (p :: pool) ltac:(congruence)). lia.
  - simpl.
    destruct (decide (pool = [])) as [->|Hne].
    + simpl. exists σ. rewrite (pool_inv_done slots Hinv). auto.
    + set (k := (hd O sched `mod` length pool)%nat).
      assert (Hk : (k < length pool)%nat).
      { apply Nat.mod_upper_bound. destruct pool; [congruence | simpl; lia]. }
      destruct (lookup_lt_is_Some_2 pool k Hk) as [[i t] Hlook].
      rewrite Hlook.
      destruct (list_elem_of_split_length pool k (i, t) Hlook)
        as (l1 & l2 & Hpool & Hlen1).
      assert (Ht : stores !! i = Some (task_store t) /\ task_ready net locals σ0 t).
      { destruct Hinv as (_ & _ & Hp & _). apply Hp. rewrite Hpool.
        apply elem_of_app. right. left. }
      destruct (task_step_sound t σ Hview (proj2 Ht)) as (out & σ' & Hstep & Hview' & Hout).
      rewrite Hstep. rewrite Hpool in *. rewrite Hlen1.
      destruct out as [t'|r].
      * destruct Hout as (Hstore & Hready & Hlt).
        rewrite insert_app_r_alt by lia. rewrite Nat.sub_diag. simpl.
        apply IH; [exact Hview' | eapply pool_inv_suspend; eauto |].
        rewrite pool_weight_split in *. simpl in *. lia.
      * subst r. rewrite delete_middle.
        apply IH; [exact Hview' | apply pool_inv_settle; exact Hinv |].
        rewrite pool_weight_split in Hweight. simpl in Hweight.
        destruct t; simpl in Hweight; lia.
Qed.
End Pool.


Lemma pool_weight_init (stores : list Store) :
  forall f : nat -> Store -> nat * Task,
    (forall i s, task_weight (f i s).2 = 2%nat) ->
    pool_weight (imap f stores) = (2 * length stores)%nat.
Proof.
  induction stores as [|s stores IH]; intros f Hf; [reflexivity|].
  unfold pool_weight in *. simpl. rewrite Hf.
  rewrite (IH (f ∘ S)) by (intros; apply Hf). lia.
Qed.

Lemma pool_inv_init net locals σ0 (stores : list Store) :
  pool_inv net locals σ0 stores
    (imap (fun i store => (i, AwaitingCache store)) stores)
    (replicate (length stores) None).
Proof.
  assert (Hfst : (imap (fun i store => (i, AwaitingCache store)) stores).*1
                 = seq 0 (length stores)).
  { rewrite fmap_imap.
    rewrite (imap_ext _ (fun j _ => id j) stores) by reflexivity.
    rewrite (imap_seq_0 stores id). apply list_fmap_id. }
  split; [apply length_replicate|]. split; [|split].
  - rewrite Hfst. apply NoDup_seq.
  - intros i t Hin. apply elem_of_lookup_imap in Hin as (j & s & Heq & Hs).
    injection Heq as -> ->. simpl. auto.
  - intros i s Hs Hi. exfalso. apply Hi. rewrite Hfst.
    apply elem_of_seq. apply lookup_lt_Some in Hs. lia.
Qed.

Lemma Promise_allSettled_sound net locals σ0 sched stores σ :
  same_view net locals σ σ0 ->
  exists σ',
    Promise_allSettled net locals sched stores σ =
      Some (expected_outcome net locals σ0 <$> stores, σ')
    /\ same_view net locals σ' σ0.
Proof.
  intros Hview. unfold Promise_allSettled.
  destruct (run_pool_sound net locals σ0 stores (2 * length stores) sched
              (imap (fun i store => (i, AwaitingCache store)) stores)
              (replicate (length stores) None) σ Hview
              (pool_inv_init net locals σ0 stores)) as (σ' & Hrun & Hview').
  { rewrite pool_weight_init by reflexivity. lia. }
  rewrite Hrun. exists σ'. split; [|exact Hview'].
  change ((fun s => Some (expected_outcome net locals σ0 s)) <$> stores)
    with ((Some ∘ expected_outcome net locals σ0) <$> stores).
  rewrite (list_fmap_compose (expected_outcome net locals σ0) Some stores).
  rewrite (mapM_fmap_Some id Some) by reflexivity. reflexivity.
Qed.

Lemma fetchMultipleStoreSpecials_sound net locals σ0 sched stores σ :
  same_view net locals σ σ0 ->
  exists σ',
    fetchMultipleStoreSpecials net sched stores locals σ =
      Some (aggregate_of net locals σ0 stores, σ')
    /\ same_view net locals σ' σ0.
Proof.
  intros Hview. unfold fetchMultipleStoreSpecials.
  destruct (Promise_allSettled_sound net locals σ0 sched stores σ Hview)
    as (σ' & Hall & Hview').
  rewrite Hall. exists σ'. split; [reflexivity | exact Hview'].
Qed.

(** ** Aggregation *)

Lemma accumulate_assoc a b c :
  accumulate (accumulate a b) c = accumulate a (accumulate b c).
Proof. unfold accumulate. simpl. rewrite !app_assoc, Nat.add_assoc. reflexivity. Qed.

Lemma accumulate_no_results_r a : accumulate a no_results = a.
Proof.
  destruct a. unfold accumulate. simpl. rewrite !app_nil_r, Nat.add_0_r. reflexivity.
Qed.

Lemma accumulate_no_results_l a : accumulate no_results a = a.
Proof. destruct a. reflexivity. Qed.

Lemma process_result_accumulate store result acc :
  process_result store result acc =
  accumulate acc (process_result store result no_results).
Proof.
  destruct result as [[s products]|reason]; simpl.
  - destruct (0 <? length products)%nat.
    + unfold accumulate. simpl. rewrite app_nil_r. reflexivity.
    + symmetry. apply accumulate_no_results_r.
  - unfold accumulate. simpl. rewrite app_nil_r, Nat.add_0_r. reflexivity.
Qed.

Lemma process_results_accumulate results :
  forall stores acc,
    process_results stores results acc =
    accumulate acc (process_results stores results no_results).
Proof.
  induction results as [|result results IH]; intros stores acc.
  - destruct stores; simpl; symmetry; apply accumulate_no_results_r.
  - destruct stores as [|store stores].
    + simpl. symmetry. apply accumulate_no_results_r.
    + simpl. rewrite IH. rewrite (IH stores (process_result _ _ no_results)).
      rewrite <- accumulate_assoc. rewrite <- process_result_accumulate. reflexivity.
Qed.

Lemma process_results_cons store stores result results :
  process_results (store :: stores) (result :: results) no_results =
  accumulate (process_result store result no_results)
             (process_results stores results no_results).
Proof. simpl. apply process_results_accumulate. Qed.

Lemma aggregate_of_cons net locals σ0 store stores :
  aggregate_of net locals σ0 (store :: stores) =
  accumulate (process_result store (expected_outcome net locals σ0 store) no_results)
             (aggregate_of net locals σ0 stores).
Proof. unfold aggregate_of. rewrite fmap_cons. apply process_results_cons. Qed.

Lemma aggregate_of_app net locals σ0 l1 l2 :
  aggregate_of net locals σ0 (l1 ++ l2) =
  accumulate (aggregate_of net locals σ0 l1) (aggregate_of net locals σ0 l2).
Proof.
  induction l1 as [|s l1 IH].
  - simpl. symmetry. apply accumulate_no_results_l.
  - rewrite <- app_comm_cons. rewrite !aggregate_of_cons, IH.
    symmetry. apply accumulate_assoc.
Qed.

Lemma aggregate_of_storeSpecials net locals σ0 stores :
  storeSpecials (aggregate_of net locals σ0 stores) =
  omap (entry_of net locals σ0) stores.
Proof.
  induction stores as [|s stores IH]; [reflexivity|].
  rewrite aggregate_of_cons. simpl. rewrite IH.
  unfold entry_of. destruct (0 <? length _)%nat; reflexivity.
Qed.

Lemma aggregate_of_errors net locals σ0 stores :
  errors (aggregate_of net locals σ0 stores) = [].
Proof.
  induction stores as [|s stores IH]; [reflexivity|].
  rewrite aggregate_of_cons. simpl. rewrite IH.
  destruct (0 <? length _)%nat; reflexivity.
Qed.

Lemma entries_follow_input net locals σ0 stores :
  sr_store <$> omap (entry_of net locals σ0) stores `sublist_of` stores.
Proof.
  induction stores as [|s stores IH]; [constructor|].
  simpl. unfold entry_of at 1.
  destruct (0 <? length _)%nat; simpl.
  - apply sublist_skip. exact IH.
  - apply sublist_cons. exact IH.
Qed.

Lemma aggregate_of_totalSpecials net locals σ0 stores :
  totalSpecials (aggregate_of net locals σ0 stores) =
  sum_list_with specialCount (storeSpecials (aggregate_of net locals σ0 stores)).
Proof.
  induction stores as [|s stores IH]; [reflexivity|].
  rewrite aggregate_of_cons. simpl. rewrite sum_list_with_app, IH.
  destruct (0 <? length _)%nat; simpl; lia.
Qed.

(** C9: the entries of [storeSpecials] are the entries of the input stores
    that have specials, in input order, whichever order the tasks resume
    and settle in; and [totalSpecials] is the sum of their [specialCount]
    fields. *)
Theorem fetchMultipleStoreSpecials_order net stores locals σ sched :
  exists r σ',
    fetchMultipleStoreSpecials net sched stores locals σ = Some (r, σ')
    /\ storeSpecials r = omap (entry_of net locals σ) stores
    /\ sr_store <$> storeSpecials r `sublist_of` stores
    /\ totalSpecials r = sum_list_with specialCount (storeSpecials r)
    /\ forall sched',
        exists σ'', fetchMultipleStoreSpecials net sched' stores locals σ = Some (r, σ'').
Proof.
  destruct (fetchMultipleStoreSpecials_sound net locals σ sched stores σ
              (same_view_refl net locals σ)) as (σ' & Hrun & _).
  exists (aggregate_of net locals σ stores), σ'.
  split; [exact Hrun|]. split; [apply aggregate_of_storeSpecials|].
  split; [rewrite aggregate_of_storeSpecials; apply entries_follow_input|].
  split; [apply aggregate_of_totalSpecials|].
  intros sched'.
  destruct (fetchMultipleStoreSpecials_sound net locals σ sched' stores σ
              (same_view_refl net locals σ)) as (σ'' & Hrun' & _).
  exists σ''. exact Hrun'.
Qed.

Lemma process_results_placement results :
  forall stores,
    length results = length stores ->
    sr_store <$> storeSpecials (process_results stores results no_results)
      = placed_at InStoreSpecials (placement <$> results) stores
    /\ Forall2 (fun e s => exists reason, e = store_name s +:+ ": " +:+ reason)
         (errors (process_results stores results no_results))
         (placed_at InErrors (placement <$> results) stores).
Proof.
  induction results as [|result results IH]; intros stores Hlen.
  - destruct stores; [|discriminate]. simpl. split; [reflexivity | constructor].
  - destruct stores as [|store stores]; [discriminate|].
    injection Hlen as Hlen. destruct (IH stores Hlen) as [IHs IHe].
    rewrite process_results_cons, fmap_cons.
    destruct result as [[s products]|reason]; simpl.
    + destruct (0 <? length products)%nat; simpl.
      * split; [f_equal; exact IHs | exact IHe].
      * split; [exact IHs | exact IHe].
    + split; [exact IHs|]. constructor; [|exact IHe].
      exists (reason_message reason). reflexivity.
Qed.

Lemma placed_at_lengths tags :
  forall stores,
    (length (placed_at InStoreSpecials tags stores)
     + length (placed_at InErrors tags stores) <= length stores)%nat.
Proof.
  induction tags as [|tag tags IH]; intros stores; [simpl; lia|].
  destruct stores as [|store stores]; [simpl; lia|].
  specialize (IH stores). destruct tag; simpl; lia.
Qed.

Lemma lone_outcome_expected net locals σ store :
  lone_outcome net locals σ store = expected_outcome net locals σ store.
Proof.
  unfold lone_outcome, expected_outcome.
  destruct (fetchStoreSpecials_returns net (store_id store) (store_name store) locals σ)
    as (σ' & H).
  rewrite H. reflexivity.
Qed.

Lemma placements_expected net locals σ stores :
  placements net locals σ stores =
  placement <$> (expected_outcome net locals σ <$> stores).
Proof.
  unfold placements. induction stores as [|s stores IH]; [reflexivity|].
  rewrite !fmap_cons, lone_outcome_expected, IH. reflexivity.
Qed.

(** C3: for every input sequence the call returns, and every input store
    has exactly one placement, decided by how its task settles: fulfilled
    with at least one special, and then its entry is in [storeSpecials];
    rejected, and then its message is in [errors]; fulfilled with no
    special, and then it is in neither.  [storeSpecials] and [errors] hold
    the stores so placed, once each and in input order, and nothing else;
    so the two lists together are no longer than the input. *)
Theorem fetchMultipleStoreSpecials_partition net stores locals σ sched :
  exists r σ',
    fetchMultipleStoreSpecials net sched stores locals σ = Some (r, σ')
    /\ Forall2 (fun s tag =>
         match tag with
         | InStoreSpecials =>
             exists products,
               lone_outcome net locals σ s = Fulfilled (s, products)
               /\ products <> []
               /\ mkStoreSpecialsResult s products (length products) ∈ storeSpecials r
         | InErrors =>
             exists reason,
               lone_outcome net locals σ s = Rejected reason
               /\ (store_name s +:+ ": " +:+ reason_message reason) ∈ errors r
         | InNeither => lone_outcome net locals σ s = Fulfilled (s, [])
         end) stores (placements net locals σ stores)
    /\ sr_store <$> storeSpecials r
       = placed_at InStoreSpecials (placements net locals σ stores) stores
    /\ Forall2 (fun e s => exists reason, e = store_name s +:+ ": " +:+ reason)
         (errors r) (placed_at InErrors (placements net locals σ stores) stores)
    /\ (length (storeSpecials r) + length (errors r) <= length stores)%nat.
Proof.
  destruct (fetchMultipleStoreSpecials_sound net locals σ sched stores σ
              (same_view_refl net locals σ)) as (σ' & Hrun & _).
  exists (aggregate_of net locals σ stores), σ'.
  split; [exact Hrun|]. split.
  - unfold placements. rewrite !Forall2_fmap_r.
    apply Forall_Forall2_diag, Forall_forall. intros s Hs.
    unfold compose. cbv beta.
    rewrite !lone_outcome_expected. unfold expected_outcome, placement.
    destruct (Nat.ltb_spec 0 (length (specials_of net locals σ (store_id s))))
      as [Hpos|Hzero]; cbv beta iota.
    + exists (specials_of net locals σ (store_id s)).
      split; [reflexivity|]. split.
      * intros Hnil. rewrite Hnil in Hpos. simpl in Hpos. lia.
      * rewrite aggregate_of_storeSpecials. apply list_elem_of_omap.
        exists s. split; [exact Hs|]. unfold entry_of.
        apply Nat.ltb_lt in Hpos. rewrite Hpos. reflexivity.
    + destruct (specials_of net locals σ (store_id s)); [reflexivity|].
      simpl in Hzero. lia.
  - rewrite placements_expected.
    destruct (process_results_placement (expected_outcome net locals σ <$> stores) stores)
      as [Hs He]; [rewrite length_fmap; reflexivity|].
    fold (aggregate_of net locals σ stores) in Hs, He.
    split; [exact Hs|]. split; [exact He|].
    apply Forall2_length in He. rewrite He.
    rewrite <- (length_fmap sr_store), Hs. apply placed_at_lengths.
Qed.

(** A rejected task would have its store named in [errors]. *)
Lemma process_result_rejected store reason acc :
  errors (process_result store (Rejected reason) acc) =
  (errors acc ++ [store_name store +:+ ": " +:+ reason_message reason])%list.
Proof. reflexivity. Qed.

(** C1, evaluated on the scenario: store B's upstream call fails with
    ["Request timeout after 10000ms"], A's entry has its 2 specials and
    [totalSpecials] is 2, yet [errors] is empty instead of naming B. *)
Theorem timed_out_store_leaves_no_error sched :
  fetchFromDutchie scenario_net SPECIALS_QUERY [("retailerId", store_id store_B)] None
    = Throw (Error "Request timeout after 10000ms")
  /\ exists σ',
      fetchMultipleStoreSpecials scenario_net sched [store_A; store_B; store_C] None empty_kv
      = Some (mkAggregateResult
                [mkStoreSpecialsResult store_A [product_on_sale; product_mixed] 2]
                2 [], σ').
Proof.
  split; [reflexivity|].
  destruct (fetchMultipleStoreSpecials_sound scenario_net None empty_kv sched
              [store_A; store_B; store_C] empty_kv
              (same_view_refl scenario_net None empty_kv)) as (σ' & Hrun & _).
  exists σ'. rewrite Hrun. reflexivity.
Qed.

Lemma fetchMultipleStoreSpecials_errors_nil net sched stores locals σ r σ' :
  fetchMultipleStoreSpecials net sched stores locals σ = Some (r, σ') ->
  errors r = [].
Proof.
  destruct (fetchMultipleStoreSpecials_sound net locals σ sched stores σ
              (same_view_refl net locals σ)) as (σ1 & Hrun & _).
  rewrite Hrun. intros [= <- <-]. apply aggregate_of_errors.
Qed.

(** ** Batches *)

Lemma js_slice_batch {A} (l : list A) (i b : Z) :
  0 <= i < Z.of_nat (length l) -> 0 < b ->
  js_slice l i (i + b) = take (Z.to_nat b) (drop (Z.to_nat i) l).
Proof.
  intros Hi Hb. unfold js_slice.
  destruct (Z.ltb_spec i 0) as [|_]; [lia|].
  destruct (Z.ltb_spec (i + b) 0) as [|_]; [lia|].
  rewrite (Z.min_l i) by lia.
  destruct (Z.le_ge_cases (i + b) (Z.of_nat (length l))) as [Hle|Hge].
  - rewrite Z.min_l by lia. f_equal. lia.
  - rewrite Z.min_r by lia.
    rewrite !take_ge; [reflexivity | |]; rewrite length_drop; lia.
Qed.

Lemma drop_batch {A} (l : list A) (i b : Z) :
  0 <= i -> 0 < b ->
  drop (Z.to_nat i) l =
  (take (Z.to_nat b) (drop (Z.to_nat i) l) ++ drop (Z.to_nat (i + b)) l)%list.
Proof.
  intros Hi Hb.
  rewrite <- (take_drop (Z.to_nat b) (drop (Z.to_nat i) l)) at 1.
  rewrite drop_drop. do 2 f_equal. lia.
Qed.

Lemma batches_loop_sound net locals σ0 stores batchSize :
  0 < batchSize ->
  forall fuel scheds i acc σ,
    0 <= i -> same_view net locals σ σ0 ->
    (Z.to_nat (Z.of_nat (length stores) - i) < fuel)%nat ->
    exists σ',
      batches_loop fuel net scheds stores batchSize locals i acc σ =
        Some (accumulate acc (aggregate_of net locals σ0 (drop (Z.to_nat i) stores)), σ')
      /\ same_view net locals σ' σ0.
Proof.
  intros Hb. induction fuel as [|fuel IH]; intros scheds i acc σ Hi Hview Hfuel; [lia|].
  simpl. destruct (Z.ltb_spec i (Z.of_nat (length stores))) as [Hlt|Hge].
  - rewrite js_slice_batch by lia.
    destruct (fetchMultipleStoreSpecials_sound net locals σ0 (hd [] scheds)
                (take (Z.to_nat batchSize) (drop (Z.to_nat i) stores)) σ Hview)
      as (σ1 & Hrun & Hview1).
    rewrite Hrun. simpl.
    destruct (IH (tl scheds) (i + batchSize)
                (accumulate acc (aggregate_of net locals σ0
                   (take (Z.to_nat batchSize) (drop (Z.to_nat i) stores)))) σ1)
      as (σ' & Hloop & Hview'); [lia | exact Hview1 | lia |].
    exists σ'. split; [|exact Hview'].
    rewrite Hloop. rewrite accumulate_assoc, <- aggregate_of_app.
    rewrite <- drop_batch by lia. reflexivity.
  - exists σ. split; [|exact Hview].
    rewrite drop_ge by lia.
    unfold aggregate_of. simpl. rewrite accumulate_no_results_r. reflexivity.
Qed.

(** C4: for a positive batch size and enough iterations for the loop to
    finish, the batched path returns the very aggregate (the same
    [storeSpecials], [totalSpecials] and [errors]) that one unbounded call
    over the whole sequence returns, whatever the resumption orders. *)
Theorem batches_agree_with_unbounded net stores locals σ batchSize scheds sched fuel :
  0 < batchSize -> (length stores < fuel)%nat ->
  exists r σb σu,
    fetchStoreSpecialsInBatches fuel net scheds stores (Some batchSize) locals σ
      = Some (r, σb)
    /\ fetchMultipleStoreSpecials net sched stores locals σ = Some (r, σu).
Proof.
  intros Hb Hfuel.
  destruct (batches_loop_sound net locals σ stores batchSize Hb fuel scheds 0
              no_results σ ltac:(lia) (same_view_refl net locals σ) ltac:(lia))
    as (σb & Hbatch & _).
  destruct (fetchMultipleStoreSpecials_sound net locals σ sched stores σ
              (same_view_refl net locals σ)) as (σu & Hrun & _).
  exists (aggregate_of net locals σ stores), σb, σu.
  split; [|exact Hrun].
  unfold fetchStoreSpecialsInBatches. simpl. rewrite Hbatch.
  rewrite accumulate_no_results_l. reflexivity.
Qed.

Lemma batches_agree_with_unbounded_witness :
  exists r σb σu,
    fetchStoreSpecialsInBatches 26 scenario_net [[2; 0; 1]%nat] twenty_five_stores None
      locals_with_cache empty_kv = Some (r, σb)
    /\ fetchMultipleStoreSpecials scenario_net [7; 3; 11]%nat twenty_five_stores
         locals_with_cache empty_kv = Some (r, σu).
Proof.
  apply (batches_agree_with_unbounded scenario_net twenty_five_stores locals_with_cache
           empty_kv 10 [[2; 0; 1]%nat] [7; 3; 11]%nat 26).
  - lia.
  - vm_compute. lia.
Defined.

(** A batch size of zero never advances the loop. *)
Lemma batches_loop_stalls fuel :
  forall net scheds stores locals acc σ,
    stores <> [] ->
    batches_loop fuel net scheds stores 0 locals 0 acc σ = None.
Proof.
  induction fuel as [|fuel IH]; intros net scheds stores locals acc σ Hne; [reflexivity|].
  cbn [batches_loop].
  destruct (Z.ltb_spec 0 (Z.of_nat (length stores))) as [_|Hlen].
  - destruct (fetchMultipleStoreSpecials net (hd [] scheds) (js_slice stores 0 (0 + 0))
                locals σ) as [[r σ']|]; [|reflexivity].
    simpl. apply IH. exact Hne.
  - destruct stores; [congruence | simpl in Hlen; lia].
Qed.

(** ** calculateDiscount *)

Lemma pow2_pos k : (0 < pow2 k)%Q.
Proof. apply Qpower_0_lt. reflexivity. Qed.

Lemma pow2_add a b : (pow2 (a + b) == pow2 a * pow2 b)%Q.
Proof. apply Qpower_plus. discriminate. Qed.

Lemma pow2_le a b : a <= b -> (pow2 a <= pow2 b)%Q.
Proof. intros H. apply Qpower_le_compat_l; [exact H | discriminate]. Qed.

Lemma pow2_lt_inv a b : (pow2 a < pow2 b)%Q -> a < b.
Proof. intros H. apply (Qpower_lt_compat_l_inv 2); [exact H | reflexivity]. Qed.

Lemma pow2_inject k : 0 <= k -> (pow2 k == inject_Z (2 ^ k))%Q.
Proof. intros H. unfold pow2. rewrite (Zpower_Qpower 2 k H). reflexivity. Qed.

Lemma ilog2_spec (x : Q) :
  (0 < x)%Q -> (pow2 (ilog2 x) <= x < pow2 (ilog2 x + 1))%Q.
Proof.
  intros Hx. destruct x as [n d]. unfold ilog2. cbn [Qnum Qden].
  assert (Hn : 0 < n) by (unfold Qlt in Hx; simpl in Hx; lia).
  set (a := Z.log2 n). set (b := Z.log2 (Z.pos d)).
  assert (Ha : 0 <= a) by apply Z.log2_nonneg.
  assert (Hb : 0 <= b) by apply Z.log2_nonneg.
  destruct (Z.log2_spec n Hn) as [Ha1 Ha2]. fold a in Ha1, Ha2.
  destruct (Z.log2_spec (Z.pos d) ltac:(lia)) as [Hb1 Hb2]. fold b in Hb1, Hb2.
  rewrite <- Z.add_1_r in Ha2, Hb2.
  assert (Hx' : (n # d == inject_Z n / inject_Z (Z.pos d))%Q) by apply Qmake_Qdiv.
  assert (Hd : (0 < inject_Z (Z.pos d))%Q) by (unfold Qlt; simpl; lia).
  assert (HA1 : (pow2 a <= inject_Z n)%Q) by (rewrite pow2_inject, <- Zle_Qle; lia).
  assert (HA2 : (inject_Z n < pow2 (a + 1))%Q) by (rewrite pow2_inject, <- Zlt_Qlt; lia).
  assert (HB1 : (pow2 b <= inject_Z (Z.pos d))%Q) by (rewrite pow2_inject, <- Zle_Qle; lia).
  assert (HB2 : (inject_Z (Z.pos d) < pow2 (b + 1))%Q)
    by (rewrite pow2_inject, <- Zlt_Qlt; lia).
  (* 2^(a-b-1) < x < 2^(a-b+1) *)
  assert (Hlo : (pow2 (a - b - 1) < n # d)%Q).
  { rewrite Hx'. apply Qlt_shift_div_l; [exact Hd|].
    apply Qlt_le_trans with (pow2 (a - b - 1) * pow2 (b + 1))%Q.
    - apply Qmult_lt_l; [apply pow2_pos | exact HB2].
    - rewrite <- pow2_add. replace (a - b - 1 + (b + 1)) with a by lia. exact HA1. }
  assert (Hhi : (n # d < pow2 (a - b + 1))%Q).
  { rewrite Hx'. apply Qlt_shift_div_r; [exact Hd|].
    apply Qlt_le_trans with (pow2 (a + 1)); [exact HA2|].
    replace (a + 1) with (a - b + 1 + b) by lia. rewrite pow2_add.
    apply Qmult_le_l; [apply pow2_pos | exact HB1]. }
  destruct (Qle_bool (pow2 (a - b)) (n # d)) eqn:E.
  - apply Qle_bool_iff in E. split; [exact E | exact Hhi].
  - split; [apply Qlt_le_weak; exact Hlo|].
    replace (a - b - 1 + 1) with (a - b) by lia.
    apply Qnot_le_lt. intros H. apply Qle_bool_iff in H. congruence.
Qed.

Lemma ilog2_mono (x y : Q) : (0 < x)%Q -> (x <= y)%Q -> ilog2 x <= ilog2 y.
Proof.
  intros Hx Hxy.
  destruct (ilog2_spec x Hx) as [H1 _].
  destruct (ilog2_spec y) as [_ H2]; [lra|].
  assert (H : (pow2 (ilog2 x) < pow2 (ilog2 y + 1))%Q) by lra.
  apply pow2_lt_inv in H. lia.
Qed.

Lemma rne_comp (x y : Q) : (x == y)%Q -> rne x = rne y.
Proof.
  intros H. unfold rne. rewrite (Qfloor_comp x y H).
  assert (Hc : (x - inject_Z (Qfloor y) ?= 1 # 2)%Q = (y - inject_Z (Qfloor y) ?= 1 # 2)%Q).
  { apply Qcompare_comp; [rewrite H; reflexivity | reflexivity]. }
  rewrite Hc. reflexivity.
Qed.

Lemma rne_Z (n : Z) : rne (inject_Z n) = n.
Proof.
  unfold rne. rewrite Qfloor_Z.
  assert (H : (inject_Z n - inject_Z n ?= 1 # 2)%Q = Lt).
  { apply Qlt_alt. setoid_replace (inject_Z n - inject_Z n)%Q with 0%Q using relation Qeq by ring.
    reflexivity. }
  rewrite H. reflexivity.
Qed.

Lemma rne_floor (x : Q) : Qfloor x <= rne x <= Qfloor x + 1.
Proof.
  unfold rne. destruct (x - inject_Z (Qfloor x) ?= 1 # 2)%Q; [|lia|lia].
  destruct (Z.even (Qfloor x)); lia.
Qed.

Lemma rne_mono (x y : Q) : (x <= y)%Q -> rne x <= rne y.
Proof.
  intros Hxy.
  pose proof (Qfloor_resp_le x y Hxy) as Hf.
  destruct (Z.eq_dec (Qfloor x) (Qfloor y)) as [Heq|Hne].
  - unfold rne. rewrite Heq.
    destruct (Qcompare_spec (x - inject_Z (Qfloor y)) (1 # 2)) as [Hx|Hx|Hx];
      destruct (Qcompare_spec (y - inject_Z (Qfloor y)) (1 # 2)) as [Hy|Hy|Hy];
      try (destruct (Z.even (Qfloor y))); try lia; exfalso; lra.
  - pose proof (rne_floor x). pose proof (rne_floor y). lia.
Qed.

Lemma round64_eq (x : Q) :
  ~ (x == 0)%Q ->
  (round64 x == inject_Z (rne (x / pow2 (fexp x))) * pow2 (fexp x))%Q.
Proof.
  intros Hx. unfold round64.
  destruct (Qeq_bool x 0) eqn:E; [apply Qeq_bool_iff in E; contradiction|].
  apply Qred_correct.
Qed.

Lemma round64_0 (x : Q) : (x == 0)%Q -> round64 x = 0%Q.
Proof.
  intros Hx. unfold round64. apply Qeq_bool_iff in Hx. rewrite Hx. reflexivity.
Qed.

Lemma scaled_lt (x : Q) : (0 < x)%Q -> (x / pow2 (fexp x) < pow2 53)%Q.
Proof.
  intros Hx. apply Qlt_shift_div_r; [apply pow2_pos|].
  rewrite <- pow2_add.
  destruct (ilog2_spec (Qabs x)) as [_ H]; [rewrite Qabs_pos; lra|].
  rewrite Qabs_pos in H at 1 by lra.
  apply Qlt_le_trans with (1 := H). apply pow2_le. unfold fexp. lia.
Qed.

Lemma scaled_ge (x : Q) :
  (0 < x)%Q -> -1074 < fexp x -> (pow2 52 <= x / pow2 (fexp x))%Q.
Proof.
  intros Hx He. apply Qle_shift_div_l; [apply pow2_pos|].
  rewrite <- pow2_add.
  destruct (ilog2_spec (Qabs x)) as [H _]; [rewrite Qabs_pos; lra|].
  rewrite Qabs_pos in H at 2 by lra.
  apply Qle_trans with (2 := H). apply pow2_le. unfold fexp in *. lia.
Qed.

Lemma fexp_mono (x y : Q) : (0 < x)%Q -> (x <= y)%Q -> fexp x <= fexp y.
Proof.
  intros Hx Hxy. unfold fexp.
  assert (H : ilog2 (Qabs x) <= ilog2 (Qabs y)).
  { apply ilog2_mono; rewrite !Qabs_pos by lra; lra. }
  lia.
Qed.

Lemma round64_nonneg (x : Q) : (0 <= x)%Q -> (0 <= round64 x)%Q.
Proof.
  intros Hx. destruct (Qeq_dec x 0) as [H0|H0].
  - rewrite (round64_0 x H0). lra.
  - rewrite (round64_eq x H0).
    apply Qmult_le_0_compat; [|apply Qlt_le_weak, pow2_pos].
    change 0%Q with (inject_Z 0). rewrite <- Zle_Qle.
    rewrite <- (rne_Z 0). apply rne_mono.
    apply Qle_shift_div_l; [apply pow2_pos | rewrite Qmult_0_l; exact Hx].
Qed.

Lemma round64_mono_pos (x y : Q) :
  (0 < x)%Q -> (x <= y)%Q -> (round64 x <= round64 y)%Q.
Proof.
  intros Hx Hxy.
  rewrite (round64_eq x), (round64_eq y) by lra.
  pose proof (fexp_mono x y Hx Hxy) as He.
  pose proof (pow2_pos (fexp x)) as Hpx. pose proof (pow2_pos (fexp y)) as Hpy.
  destruct (Z.eq_dec (fexp x) (fexp y)) as [Heq|Hne].
  - rewrite Heq. apply Qmult_le_compat_r; [|lra].
    rewrite <- Zle_Qle. apply rne_mono.
    apply Qmult_le_compat_r; [exact Hxy|].
    apply Qlt_le_weak, Qinv_lt_0_compat. exact Hpy.
  - assert (Hmx : rne (x / pow2 (fexp x)) <= 2 ^ 53).
    { rewrite <- (rne_Z (2 ^ 53)). apply rne_mono.
      apply Qle_trans with (pow2 53); [apply Qlt_le_weak, scaled_lt; exact Hx|].
      rewrite (pow2_inject 53) by lia. apply Qle_refl. }
    assert (Hmy : 2 ^ 52 <= rne (y / pow2 (fexp y))).
    { rewrite <- (rne_Z (2 ^ 52)). apply rne_mono.
      apply Qle_trans with (pow2 52);
        [rewrite (pow2_inject 52) by lia; apply Qle_refl|].
      apply scaled_ge; [lra|]. unfold fexp in *. lia. }
    apply Qle_trans with (pow2 53 * pow2 (fexp x))%Q.
    + apply Qmult_le_compat_r; [|lra].
      rewrite (pow2_inject 53) by lia. rewrite <- Zle_Qle. exact Hmx.
    + apply Qle_trans with (pow2 52 * pow2 (fexp y))%Q.
      * rewrite <- !pow2_add. apply pow2_le. lia.
      * apply Qmult_le_compat_r; [|lra].
        rewrite (pow2_inject 52) by lia. rewrite <- Zle_Qle. exact Hmy.
Qed.

Lemma ilog2_unique (x : Q) (k : Z) :
  (0 < x)%Q -> (pow2 k <= x < pow2 (k + 1))%Q -> ilog2 x = k.
Proof.
  intros Hx [H1 H2]. destruct (ilog2_spec x Hx) as [H3 H4].
  assert (Ha : (pow2 (ilog2 x) < pow2 (k + 1))%Q) by lra.
  assert (Hb : (pow2 k < pow2 (ilog2 x + 1))%Q) by lra.
  apply pow2_lt_inv in Ha, Hb. lia.
Qed.

Lemma fexp_comp (x y : Q) : (x == y)%Q -> ~ (x == 0)%Q -> fexp x = fexp y.
Proof.
  intros Hxy Hx. unfold fexp. f_equal. f_equal.
  assert (Hpos : (0 < Qabs x)%Q).
  { destruct (Qlt_le_dec 0 (Qabs x)) as [|Hle]; [assumption|].
    exfalso. apply Hx. pose proof (Qabs_nonneg x).
    apply (Qabs_Qle_condition x 0) in Hle. simpl in Hle.
    destruct Hle as [Hl Hu]. lra. }
  symmetry. apply ilog2_unique.
  - rewrite <- (Qabs_wd x y Hxy). exact Hpos.
  - rewrite <- (Qabs_wd x y Hxy). apply ilog2_spec. exact Hpos.
Qed.

Lemma round64_comp (x y : Q) : (x == y)%Q -> (round64 x == round64 y)%Q.
Proof.
  intros Hxy. destruct (Qeq_dec x 0) as [H0|H0].
  - rewrite (round64_0 x H0), (round64_0 y); [reflexivity|].
    rewrite <- Hxy. exact H0.
  - assert (Hy : ~ (y == 0)%Q) by (rewrite <- Hxy; exact H0).
    rewrite (round64_eq x H0), (round64_eq y Hy).
    rewrite (fexp_comp x y Hxy H0).
    rewrite (rne_comp (x / pow2 (fexp y)) (y / pow2 (fexp y))); [reflexivity|].
    rewrite Hxy. reflexivity.
Qed.

Lemma Qle_bool_false (x y : Q) : Qle_bool x y = false <-> (y < x)%Q.
Proof.
  split.
  - intros H. apply Qnot_le_lt. intros Hle. apply Qle_bool_iff in Hle. congruence.
  - intros H. destruct (Qle_bool x y) eqn:E; [|reflexivity].
    apply Qle_bool_iff in E. lra.
Qed.

Lemma Qeq_bool_false (x y : Q) : ~ (x == y)%Q -> Qeq_bool x y = false.
Proof.
  intros H. destruct (Qeq_bool x y) eqn:E; [|reflexivity].
  apply Qeq_bool_iff in E. contradiction.
Qed.

Lemma is_negative_pos (q : Q) : (0 < q)%Q -> is_negative q = false.
Proof.
  intros H. unfold is_negative. apply negb_false_iff, Qle_bool_iff. lra.
Qed.

(** Rounding a positive exact value that is at most a binary64 value [hi]
    gives +0 or a positive number up to [hi], whose value is the rounded
    one. *)
Lemma round_number_range (hi x : Q) :
  (0 < x)%Q -> (x <= hi)%Q -> (round64 hi == hi)%Q -> (hi < pow2 1024)%Q ->
  in_range hi (round_number false x)
  /\ (value_of (round_number false x) == round64 x)%Q.
Proof.
  intros Hx Hhi Hd Hmax. unfold round_number.
  rewrite (Qeq_bool_false x 0) by lra.
  pose proof (round64_nonneg x ltac:(lra)) as H0.
  pose proof (round64_mono_pos x hi Hx Hhi) as H1. rewrite Hd in H1.
  destruct (Qeq_bool (round64 x) 0) eqn:E.
  - apply Qeq_bool_iff in E.
    assert (Hs : Qle_bool x 0 = false) by (apply Qle_bool_false; exact Hx).
    rewrite Hs. simpl. split; [exact I | symmetry; exact E].
  - assert (Hne : ~ (round64 x == 0)%Q).
    { intros H. apply Qeq_bool_iff in H. congruence. }
    assert (Hov : Qle_bool (pow2 1024) (Qabs (round64 x)) = false).
    { apply Qle_bool_false. rewrite Qabs_pos by exact H0. lra. }
    rewrite Hov. simpl. split; [|reflexivity]. split; lra.
Qed.

Lemma round64_1 : (round64 1 == 1)%Q.
Proof. vm_compute. reflexivity. Qed.

Lemma round64_100 : (round64 100 == 100)%Q.
Proof. vm_compute. reflexivity. Qed.

Lemma pow2_1024_gt_100 : (100 < pow2 1024)%Q.
Proof. vm_compute. reflexivity. Qed.

Lemma in_range_value hi x : in_range hi x -> (0 <= value_of x <= hi \/ x = Zero false)%Q.
Proof.
  destruct x as [| |[]|q]; simpl; try contradiction; [auto|].
  intros [H1 H2]. left. lra.
Qed.

Lemma sub_range (r s : Q) :
  (0 <= s)%Q -> (s < r)%Q -> (round64 r == r)%Q -> (r < pow2 1024)%Q ->
  in_range r (number_sub (Finite r) (Finite s))
  /\ (value_of (number_sub (Finite r) (Finite s)) == round64 (r - s))%Q.
Proof.
  intros Hs Hlt Hd Hmax. simpl.
  apply round_number_range; [lra | lra | exact Hd | exact Hmax].
Qed.

Lemma div_range (r : Q) (a : number) :
  (0 < r)%Q -> in_range r a ->
  in_range 1 (number_div a (Finite r))
  /\ (value_of (number_div a (Finite r)) == round64 (value_of a / r))%Q.
Proof.
  intros Hr Ha. destruct a as [| |[]|q]; simpl in Ha; try contradiction.
  - simpl. rewrite (is_negative_pos r Hr). simpl. split; [exact I|].
    rewrite round64_0; [reflexivity|]. unfold Qdiv. ring.
  - destruct Ha as [H0 H1]. simpl.
    apply round_number_range.
    + apply Qlt_shift_div_l; [exact Hr | lra].
    + apply Qle_shift_div_r; [exact Hr | lra].
    + exact round64_1.
    + pose proof pow2_1024_gt_100. lra.
Qed.

Lemma mul_range (b : number) :
  in_range 1 b ->
  in_range 100 (number_mul b (Finite 100))
  /\ (value_of (number_mul b (Finite 100)) == round64 (value_of b * 100))%Q.
Proof.
  intros Hb. destruct b as [| |[]|q]; simpl in Hb; try contradiction.
  - simpl. split; [exact I|]. rewrite round64_0; [reflexivity | ring].
  - destruct Hb as [H0 H1]. simpl.
    apply round_number_range; [lra | lra | exact round64_100 | exact pow2_1024_gt_100].
Qed.

Lemma round_range (c : number) :
  in_range 100 c ->
  Math_round c = num (Qfloor (value_of c + (1 # 2)))
  /\ 0 <= Qfloor (value_of c + (1 # 2)) <= 100.
Proof.
  intros Hc. destruct c as [| |[]|q]; simpl in Hc; try contradiction.
  - simpl. split; [reflexivity | vm_compute; split; discriminate].
  - destruct Hc as [H0 H1]. cbn [Math_round value_of]. unfold num.
    rewrite (is_negative_pos q H0). split; [reflexivity|].
    assert (Hlo : Qfloor 0 <= Qfloor (q + (1 # 2))) by (apply Qfloor_resp_le; lra).
    assert (Hhi : Qfloor (q + (1 # 2)) <= Qfloor (100 + (1 # 2)))
      by (apply Qfloor_resp_le; lra).
    change (Qfloor 0) with 0 in Hlo.
    change (Qfloor (100 + (1 # 2))) with 100 in Hhi. lia.
Qed.

(** The else branch for a positive binary64 [regular] and [0 < special <
    regular]: every intermediate result stays in range, and the result is
    the rounding of the binary64 percentage. *)
Lemma calculateDiscount_proper (r s : Q) :
  (0 <= s)%Q -> (s < r)%Q -> (round64 r == r)%Q -> (r < pow2 1024)%Q ->
  exists c : Q,
    (c == round64 (round64 (round64 (r - s) / r) * 100))%Q
    /\ calculateDiscount (Finite r) (Finite s) = num (Qfloor (c + (1 # 2)))
    /\ 0 <= Qfloor (c + (1 # 2)) <= 100.
Proof.
  intros Hs Hlt Hd Hmax.
  assert (Hr : (0 < r)%Q) by lra.
  destruct (sub_range r s Hs Hlt Hd Hmax) as [Ha Hav].
  destruct (div_range r _ Hr Ha) as [Hb Hbv].
  destruct (mul_range _ Hb) as [Hc Hcv].
  destruct (round_range _ Hc) as [Hround Hn].
  exists (value_of (number_mul (number_div (number_sub (Finite r) (Finite s)) (Finite r))
                            (Finite 100))).
  split; [|split].
  - rewrite Hcv. apply round64_comp. apply Qmult_comp; [|reflexivity].
    rewrite Hbv. apply round64_comp. apply Qmult_comp; [|reflexivity].
    exact Hav.
  - unfold calculateDiscount.
    assert (Hg : number_ge (Finite s) (Finite r) = false)
      by (apply Qle_bool_false; exact Hlt).
    cbn [number_falsy orb]. rewrite Hg. exact Hround.
  - exact Hn.
Qed.

Lemma round64_mono (x y : Q) :
  (0 <= x)%Q -> (x <= y)%Q -> (round64 x <= round64 y)%Q.
Proof.
  intros Hx Hxy. destruct (Qeq_dec x 0) as [H0|H0].
  - rewrite (round64_0 x H0). apply round64_nonneg. lra.
  - apply round64_mono_pos; [lra | exact Hxy].
Qed.

Lemma calculateDiscount_not_below (r s : Q) :
  (r <= s)%Q -> calculateDiscount (Finite r) (Finite s) = Zero false.
Proof.
  intros H. unfold calculateDiscount.
  assert (Hg : number_ge (Finite s) (Finite r) = true)
    by (apply Qle_bool_iff; exact H).
  rewrite Hg, orb_true_r. reflexivity.
Qed.

(** A non-negative finite binary64 number is a zero or a positive rational
    that rounding leaves alone. *)
Lemma nonnegative_finite (x : number) :
  binary64 x -> is_finite x -> nonnegative x ->
  (exists b, x = Zero b)
  \/ (exists r, x = Finite r /\ (0 < r)%Q /\ (round64 r == r)%Q /\ (r < pow2 1024)%Q).
Proof.
  destruct x as [|b|b|r]; simpl; try contradiction.
  - intros _ _ _. left. exists b. reflexivity.
  - intros (Hne & Hd & Hmax) _ Hpos. right. exists r.
    unfold nonnegative in Hpos. simpl in Hpos. apply Qle_bool_iff in Hpos.
    assert (H0 : (0 < r)%Q).
    { destruct (Qlt_le_dec 0 r) as [|Hle]; [assumption|].
      exfalso. apply Hne. lra. }
    rewrite Qabs_pos in Hmax by lra. auto.
Qed.

Lemma nonnegative_special (special : number) :
  nonnegative special ->
  (exists b, special = Zero b) \/ special = Infinity false
  \/ (exists s, special = Finite s /\ (0 <= s)%Q).
Proof.
  destruct special as [|[]|b|s]; unfold nonnegative; simpl; try discriminate.
  - intros _. right. left. reflexivity.
  - intros _. left. exists b. reflexivity.
  - intros H. apply Qle_bool_iff in H. right. right. exists s. auto.
Qed.

Lemma Math_round_nearest (q : Q) :
  exists n : Z,
    (value_of (Math_round (Finite q)) == inject_Z n)%Q
    /\ (inject_Z n - (1 # 2) <= q < inject_Z n + (1 # 2))%Q.
Proof.
  exists (Qfloor (q + (1 # 2))). split.
  - cbn [Math_round]. destruct (Z.eqb_spec (Qfloor (q + (1 # 2))) 0) as [->|]; reflexivity.
  - pose proof (Qfloor_le (q + (1 # 2))) as Hlo.
    pose proof (Qlt_floor (q + (1 # 2))) as Hhi.
    rewrite inject_Z_plus in Hhi. change (inject_Z 1) with 1%Q in Hhi.
    split; lra.
Qed.

(** C7: [calculateDiscount regular special] is [0] when [special >= regular]
    or when either argument is falsy ([NaN] or a zero); otherwise it is
    [Math.round(((regular - special) / regular) * 100)], every operation
    being the binary64 one.  [Math.round] gives the nearest integer, halves
    going up; so for a positive binary64 [regular] and [0 < special <
    regular] the result is the integer nearest to the percentage as
    rounded after the subtraction, after the division and after the
    multiplication.  And [calculateDiscount(1000, 750)] is 25. *)
Theorem calculateDiscount_spec (regular special : number) :
  (number_ge special regular = true \/ number_falsy regular = true
   \/ number_falsy special = true ->
   calculateDiscount regular special = Zero false)
  /\ (number_ge special regular = false /\ number_falsy regular = false
      /\ number_falsy special = false ->
      calculateDiscount regular special =
      Math_round (number_mul (number_div (number_sub regular special) regular)
                             (Finite 100)))
  /\ (forall q : Q, exists n : Z,
        (value_of (Math_round (Finite q)) == inject_Z n)%Q
        /\ (inject_Z n - (1 # 2) <= q < inject_Z n + (1 # 2))%Q)
  /\ (forall r s : Q,
        regular = Finite r -> special = Finite s ->
        (0 < s)%Q -> (s < r)%Q -> binary64 regular ->
        calculateDiscount regular special =
        num (Qfloor (round64 (round64 (round64 (r - s) / r) * 100) + (1 # 2))))
  /\ calculateDiscount (num 1000) (num 750) = num 25.
Proof.
  split; [|split; [|split; [|split]]].
  - intros H. unfold calculateDiscount.
    destruct H as [H|[H|H]]; rewrite H, ?orb_true_r; reflexivity.
  - intros (H1 & H2 & H3). unfold calculateDiscount.
    rewrite H1, H2, H3. reflexivity.
  - exact Math_round_nearest.
  - intros r s -> -> Hs Hlt (Hne & Hd & Hmax).
    rewrite Qabs_pos in Hmax by lra.
    destruct (calculateDiscount_proper r s (Qlt_le_weak _ _ Hs) Hlt Hd Hmax)
      as (c & Hc & Hcalc & _).
    rewrite Hcalc. f_equal. apply Qfloor_comp. rewrite Hc. reflexivity.
  - vm_compute. reflexivity.
Qed.

(** The percentage of 4000 and 1700 is 57.5; its binary64 value is just
    below, and the discount is 57. *)
Lemma calculateDiscount_spec_witness :
  calculateDiscount (num 4000) (num 1700) = num 57.
Proof.
  apply (proj1 (proj2 (proj2 (proj2
           (calculateDiscount_spec (num 4000) (num 1700))))) 4000%Q 1700%Q);
    try reflexivity.
  vm_compute. split; [discriminate | split; reflexivity].
Defined.

(** C10 as stated fails for [regular = Infinity], a non-negative number:
    [calculateDiscount(Infinity, 5)] is [NaN], which is not between 0 and
    100. *)
Lemma calculateDiscount_infinite_regular :
  nonnegative (Infinity false) /\ nonnegative (num 5)
  /\ calculateDiscount (Infinity false) (num 5) = NaN
  /\ between_0_and_100 (calculateDiscount (Infinity false) (num 5)) = false.
Proof. repeat split. Qed.

(** C10: for a finite non-negative [regular] and a non-negative [special],
    [calculateDiscount] returns an integer between 0 and 100 inclusive. *)
Theorem calculateDiscount_range (regular special : number) :
  binary64 regular -> is_finite regular ->
  nonnegative regular -> nonnegative special ->
  exists n : Z,
    0 <= n <= 100 /\ calculateDiscount regular special = num n.
Proof.
  intros Hb Hf Hr Hs.
  destruct (nonnegative_finite regular Hb Hf Hr) as [[b ->]|(r & -> & H0 & Hd & Hmax)].
  - exists 0. split; [lia | reflexivity].
  - destruct (nonnegative_special special Hs) as [[b ->]|[->|(s & -> & Hs0)]].
    + exists 0. split; [lia | reflexivity].
    + exists 0. split; [lia | reflexivity].
    + destruct (Qlt_le_dec s r) as [Hlt|Hge].
      * destruct (calculateDiscount_proper r s Hs0 Hlt Hd Hmax)
          as (c & _ & Hcalc & Hn).
        exists (Qfloor (c + (1 # 2))). split; [exact Hn | exact Hcalc].
      * exists 0. split; [lia | apply calculateDiscount_not_below; exact Hge].
Qed.

Lemma calculateDiscount_range_witness :
  exists n : Z,
    0 <= n <= 100 /\ calculateDiscount (num 4000) (num 1700) = num n.
Proof.
  apply (calculateDiscount_range (num 4000) (num 1700)).
  - vm_compute. split; [discriminate | split; reflexivity].
  - exact I.
  - reflexivity.
  - reflexivity.
Defined.

(** * Further properties of [dutchie-utils.ts] *)

(** X2: a request that has not settled strictly before the budget fails
    with ["Request timeout after <budget>ms"], whatever answer or error
    would have come later. *)
Theorem fetchFromDutchie_late_answer_times_out net query variables timeoutMs :
  match net query variables with
  | Responds latency _ => timeoutMs <= latency
  | NetworkError latency _ => timeoutMs <= latency
  | Hangs => True
  end ->
  fetchFromDutchie net query variables (Some timeoutMs) =
  Throw (Error ("Request timeout after " +:+ pretty timeoutMs +:+ "ms")).
Proof.
  unfold fetchFromDutchie, fetchWithTimeout, fetch. simpl.
  destruct (net query variables) as [latency response|latency err|]; intros H.
  - destruct (Z.ltb_spec latency timeoutMs); [lia | reflexivity].
  - destruct (Z.ltb_spec latency timeoutMs); [lia | reflexivity].
  - reflexivity.
Qed.

Lemma fetchFromDutchie_late_answer_times_out_witness :
  fetchFromDutchie scenario_net SPECIALS_QUERY [("retailerId", "a")] (Some 100) =
  Throw (Error "Request timeout after 100ms").
Proof.
  apply (fetchFromDutchie_late_answer_times_out scenario_net SPECIALS_QUERY
           [("retailerId", "a")] 100).
  simpl. lia.
Defined.

(** ** Cache-aside: hits, round trips, faults, frames *)

Lemma stores_write_back_never_throws kv value σ :
  exists σ',
    try_catch (kv_put_stores kv stores_cache_key value CACHE_TTL_SECONDS)
              (fun _ => ret tt) σ = (Ok tt, σ')
    /\ kv_specials σ' = kv_specials σ
    /\ (σ' = σ
        \/ kv_stores σ' = <[stores_cache_key := (value, CACHE_TTL_SECONDS)]> (kv_stores σ)).
Proof.
  unfold try_catch, kv_put_stores, ret.
  destruct (put_fault kv stores_cache_key); eexists; split; eauto.
Qed.

(** X4: [fetchDutchieStores] always returns; it never touches the specials
    entries, and its only possible write puts the very list it returns,
    which is then not empty, under the store-list key for 900 seconds. *)
Theorem fetchDutchieStores_frame net locals σ :
  exists stores σ',
    fetchDutchieStores net locals σ = (Ok stores, σ')
    /\ kv_specials σ' = kv_specials σ
    /\ (σ' = σ
        \/ stores <> []
           /\ kv_stores σ' = <[stores_cache_key := (stores, CACHE_TTL_SECONDS)]> (kv_stores σ)).
Proof.
  unfold fetchDutchieStores. unfold bind at 1.
  rewrite readStoresCache_answer.
  destruct (stores_cache_answer locals σ) as [cached|].
  - exists cached, σ. auto.
  - unfold try_catch at 1, bind at 1, lift.
    destruct (fetchFromDutchie net STORES_QUERY [] None) as [data|e];
      [|exists [], σ; auto].
    set (stores := default [] (data ≫= retailers)).
    unfold bind. destruct (getKVNamespace locals) as [kv|]; [|exists stores, σ; auto].
    destruct (Nat.ltb_spec 0 (length stores)) as [Hpos|Hzero]; [|exists stores, σ; auto].
    destruct (stores_write_back_never_throws kv stores σ) as (σ' & Hput & Hsp & Hσ').
    rewrite Hput. exists stores, σ'. split; [reflexivity|]. split; [exact Hsp|].
    destruct Hσ' as [->|Hw]; [left; reflexivity|].
    right. split; [|exact Hw]. destruct stores; [simpl in Hpos; lia | congruence].
Qed.

(** X3: with a working cache that has no store list yet, a successful
    non-empty upstream answer is returned and cached, and the next call
    returns the same list from the cache whatever the upstream does then. *)
Theorem fetchDutchieStores_round_trip net net' locals σ ns data stores :
  getKVNamespace locals = Some ns ->
  get_fault ns stores_cache_key = None ->
  put_fault ns stores_cache_key = None ->
  kv_stores σ !! stores_cache_key = None ->
  fetchFromDutchie net STORES_QUERY [] None = Ok data ->
  data ≫= retailers = Some stores -> stores <> [] ->
  exists σ1,
    fetchDutchieStores net locals σ = (Ok stores, σ1)
    /\ kv_stores σ1 !! stores_cache_key = Some (stores, CACHE_TTL_SECONDS)
    /\ fetchDutchieStores net' locals σ1 = (Ok stores, σ1).
Proof.
  intros Hns Hget Hput Habsent Hdata Hstores Hne.
  exists (mkKVState (<[stores_cache_key := (stores, CACHE_TTL_SECONDS)]> (kv_stores σ))
                    (kv_specials σ)).
  assert (Hlen : (0 <? length stores)%nat = true).
  { apply Nat.ltb_lt. destruct stores; [congruence | simpl; lia]. }
  split; [|split].
  - unfold fetchDutchieStores. unfold bind at 1.
    rewrite readStoresCache_answer. unfold stores_cache_answer.
    rewrite Hns, Hget, Habsent. simpl.
    unfold try_catch, bind, lift. rewrite Hdata, Hstores. simpl. rewrite Hlen.
    unfold kv_put_stores. rewrite Hput. reflexivity.
  - simpl. apply lookup_insert_eq.
  - unfold fetchDutchieStores. unfold bind at 1.
    rewrite readStoresCache_answer. unfold stores_cache_answer.
    rewrite Hns, Hget. simpl. rewrite lookup_insert_eq. reflexivity.
Qed.

Lemma fetchDutchieStores_round_trip_witness :
  exists σ1,
    fetchDutchieStores stores_net locals_with_cache empty_kv
      = (Ok [store_A; store_B; store_C], σ1)
    /\ kv_stores σ1 !! stores_cache_key
       = Some ([store_A; store_B; store_C], CACHE_TTL_SECONDS)
    /\ fetchDutchieStores failing_net locals_with_cache σ1
       = (Ok [store_A; store_B; store_C], σ1).
Proof.
  apply (fetchDutchieStores_round_trip stores_net failing_net locals_with_cache empty_kv
           healthy_namespace
           (Some (mkData (Some [store_A; store_B; store_C]) None))).
  - reflexivity.
  - reflexivity.
  - reflexivity.
  - reflexivity.
  - reflexivity.
  - reflexivity.
  - discriminate.
Defined.

(** X6: with a working cache that has no entry for the store, the filtered
    upstream products are returned and cached, and the next call for that
    store returns the same list from the cache whatever the upstream does
    then (also when the list is empty). *)
Theorem fetchStoreSpecials_round_trip net net' storeId storeName storeName' locals σ ns
    data products :
  getKVNamespace locals = Some ns ->
  get_fault ns (specials_cache_key storeId) = None ->
  put_fault ns (specials_cache_key storeId) = None ->
  kv_specials σ !! specials_cache_key storeId = None ->
  fetchFromDutchie net SPECIALS_QUERY [("retailerId", storeId)] None = Ok data ->
  (data ≫= menu) ≫= menu_products = Some products ->
  exists σ1,
    fetchStoreSpecials net storeId storeName locals σ
      = (Ok (List.filter has_special_variant products), σ1)
    /\ fetchStoreSpecials net' storeId storeName' locals σ1
       = (Ok (List.filter has_special_variant products), σ1).
Proof.
  intros Hns Hget Hput Habsent Hdata Hproducts.
  exists (mkKVState (kv_stores σ)
            (<[specials_cache_key storeId :=
                 (List.filter has_special_variant products, CACHE_TTL_SECONDS)]>
               (kv_specials σ))).
  split.
  - unfold fetchStoreSpecials, bind. rewrite readSpecialsCache_answer.
    unfold cache_answer. rewrite Hns, Hget, Habsent. simpl.
    unfold fetchSpecialsFromApi, try_catch, bind, lift.
    rewrite Hdata, Hproducts. unfold kv_put_specials. rewrite Hput. reflexivity.
  - unfold fetchStoreSpecials, bind. rewrite readSpecialsCache_answer.
    unfold cache_answer. rewrite Hns, Hget. simpl. rewrite lookup_insert_eq. reflexivity.
Qed.

Lemma fetchStoreSpecials_round_trip_witness :
  exists σ1,
    fetchStoreSpecials scenario_net "a" "A" locals_with_cache empty_kv
      = (Ok (List.filter has_special_variant
               [product_on_sale; product_regular; product_mixed]), σ1)
    /\ fetchStoreSpecials failing_net "a" "Store A" locals_with_cache σ1
       = (Ok (List.filter has_special_variant
                [product_on_sale; product_regular; product_mixed]), σ1).
Proof.
  apply (fetchStoreSpecials_round_trip scenario_net failing_net "a" "A" "Store A"
           locals_with_cache empty_kv healthy_namespace
           (Some (mkData None (Some (mkMenu
              (Some [product_on_sale; product_regular; product_mixed])))))).
  - reflexivity.
  - reflexivity.
  - reflexivity.
  - reflexivity.
  - reflexivity.
  - reflexivity.
Defined.

(** A stored entry is returned as it is, without asking upstream. *)
Lemma fetchStoreSpecials_cache_hit net storeId storeName locals σ ns cached ttl :
  getKVNamespace locals = Some ns ->
  get_fault ns (specials_cache_key storeId) = None ->
  kv_specials σ !! specials_cache_key storeId = Some (cached, ttl) ->
  fetchStoreSpecials net storeId storeName locals σ = (Ok cached, σ).
Proof.
  intros Hns Hget Hcached.
  unfold fetchStoreSpecials, bind. rewrite readSpecialsCache_answer.
  unfold cache_answer. rewrite Hns, Hget, Hcached. reflexivity.
Qed.

(** X9: a namespace whose [get] and [put] always throw behaves exactly
    like no namespace at all, for both fetches, and the state is left
    alone. *)
Theorem cache_faults_absorbed net locals σ ns storeId storeName :
  getKVNamespace locals = Some ns ->
  (forall key, is_Some (get_fault ns key)) ->
  (forall key, is_Some (put_fault ns key)) ->
  fetchDutchieStores net locals σ = fetchDutchieStores net None σ
  /\ fetchStoreSpecials net storeId storeName locals σ
     = fetchStoreSpecials net storeId storeName None σ
  /\ snd (fetchDutchieStores net locals σ) = σ
  /\ snd (fetchStoreSpecials net storeId storeName locals σ) = σ.
Proof.
  intros Hns Hget Hput.
  destruct (Hget stores_cache_key) as [e1 He1].
  destruct (Hput stores_cache_key) as [e2 He2].
  destruct (Hget (specials_cache_key storeId)) as [e3 He3].
  destruct (Hput (specials_cache_key storeId)) as [e4 He4].
  assert (Hstores : fetchDutchieStores net locals σ = fetchDutchieStores net None σ
                    /\ snd (fetchDutchieStores net None σ) = σ).
  { unfold fetchDutchieStores, bind, try_catch, lift, kv_get_stores, kv_put_stores, ret.
    rewrite Hns. simpl. rewrite He1.
    destruct (fetchFromDutchie net STORES_QUERY [] None) as [data|e]; [|auto].
    rewrite He2.
    destruct (0 <? length (default [] (data ≫= retailers)))%nat; auto. }
  assert (Hspecials : fetchStoreSpecials net storeId storeName locals σ
                      = fetchStoreSpecials net storeId storeName None σ
                      /\ snd (fetchStoreSpecials net storeId storeName None σ) = σ).
  { unfold fetchStoreSpecials, bind. rewrite !readSpecialsCache_answer.
    unfold cache_answer. rewrite Hns, He3. simpl.
    unfold fetchSpecialsFromApi, try_catch, bind, lift.
    destruct (fetchFromDutchie net SPECIALS_QUERY [("retailerId", storeId)] None)
      as [data|e]; [|auto].
    destruct ((data ≫= menu) ≫= menu_products) as [products|]; [|auto].
    unfold kv_put_specials. rewrite He4. auto. }
  destruct Hstores as [Hs1 Hs2], Hspecials as [Hp1 Hp2].
  rewrite Hs1, Hp1. auto.
Qed.

Lemma cache_faults_absorbed_witness :
  fetchDutchieStores stores_net locals_with_broken_cache empty_kv
    = fetchDutchieStores stores_net None empty_kv
  /\ fetchStoreSpecials stores_net "a" "A" locals_with_broken_cache empty_kv
     = fetchStoreSpecials stores_net "a" "A" None empty_kv
  /\ snd (fetchDutchieStores stores_net locals_with_broken_cache empty_kv) = empty_kv
  /\ snd (fetchStoreSpecials stores_net "a" "A" locals_with_broken_cache empty_kv) = empty_kv.
Proof.
  apply (cache_faults_absorbed stores_net locals_with_broken_cache empty_kv
           broken_namespace "a" "A").
  - reflexivity.
  - intros key. simpl. eauto.
  - intros key. simpl. eauto.
Defined.

(** X7: [fetchStoreSpecials] for one store leaves the store list and every
    other key alone, so what other stores read from the cache is unchanged;
    under its own key it leaves either what was there or the list it
    returns, for 900 seconds. *)
Theorem fetchStoreSpecials_isolated net storeId storeName locals σ :
  exists products σ',
    fetchStoreSpecials net storeId storeName locals σ = (Ok products, σ')
    /\ kv_stores σ' = kv_stores σ
    /\ (forall key, key <> specials_cache_key storeId ->
          kv_specials σ' !! key = kv_specials σ !! key)
    /\ (forall other, other <> storeId ->
          cache_answer locals σ' other = cache_answer locals σ other)
    /\ (kv_specials σ' !! specials_cache_key storeId
          = kv_specials σ !! specials_cache_key storeId
        \/ kv_specials σ' !! specials_cache_key storeId
           = Some (products, CACHE_TTL_SECONDS)).
Proof.
  unfold fetchStoreSpecials, bind. rewrite readSpecialsCache_answer.
  destruct (cache_answer locals σ storeId) as [cached|] eqn:Hc.
  - exists cached, σ. auto 10.
  - destruct (fetchSpecialsFromApi_returns net storeId (getKVNamespace locals)
                (specials_cache_key storeId) σ) as (σ' & Hrun & Hσ').
    rewrite Hrun. exists (upstream_specials net storeId), σ'.
    split; [reflexivity|].
    destruct Hσ' as [->|(ns & Hns & Hput & ->)]; [auto 10|]. simpl.
    split; [reflexivity|]. split; [|split].
    + intros key Hkey. apply lookup_insert_ne. congruence.
    + intros other Hother. unfold cache_answer. simpl.
      rewrite lookup_insert_ne; [reflexivity|].
      intros Heq. apply Hother. symmetry. apply specials_cache_key_inj. exact Heq.
    + right. apply lookup_insert_eq.
Qed.

(** One unfolding of [fetchStoreSpecials]. *)
Lemma fetchStoreSpecials_unfold net storeId storeName locals σ :
  fetchStoreSpecials net storeId storeName locals σ =
  match cache_answer locals σ storeId with
  | Some cached => (Ok cached, σ)
  | None =>
      fetchSpecialsFromApi net storeId (getKVNamespace locals)
        (specials_cache_key storeId) σ
  end.
Proof.
  unfold fetchStoreSpecials, bind. rewrite readSpecialsCache_answer.
  destruct (cache_answer locals σ storeId); reflexivity.
Qed.

(** X8: a second [fetchStoreSpecials] call for the same store, on the cache
    the first call left, returns the same products and leaves that cache as
    it is. *)
Theorem fetchStoreSpecials_idempotent net storeId storeName locals σ :
  exists products σ1,
    fetchStoreSpecials net storeId storeName locals σ = (Ok products, σ1)
    /\ fetchStoreSpecials net storeId storeName locals σ1 = (Ok products, σ1).
Proof.
  setoid_rewrite fetchStoreSpecials_unfold.
  destruct (cache_answer locals σ storeId) as [cached|] eqn:Hc.
  - exists cached, σ. rewrite Hc. auto.
  - unfold cache_answer in *.
    unfold fetchSpecialsFromApi, try_catch, bind, lift, kv_put_specials, ret.
    destruct (fetchFromDutchie net SPECIALS_QUERY [("retailerId", storeId)] None)
      as [data|e]; [|exists [], σ; rewrite Hc; auto].
    destruct ((data ≫= menu) ≫= menu_products) as [products|];
      [|exists [], σ; rewrite Hc; auto].
    destruct (getKVNamespace locals) as [ns|] eqn:Hns;
      [|eexists _, σ; split; reflexivity].
    destruct (put_fault ns (specials_cache_key storeId)) as [e|] eqn:Hput;
      [eexists _, σ; rewrite Hc; split; reflexivity|].
    eexists _, _. split; [reflexivity|]. simpl.
    destruct (get_fault ns (specials_cache_key storeId)) as [e|].
    + rewrite insert_insert_eq. reflexivity.
    + rewrite lookup_insert_eq. reflexivity.
Qed.

Lemma fetchDutchieStores_unfold net locals σ :
  fetchDutchieStores net locals σ =
  match stores_cache_answer locals σ with
  | Some cached => (Ok cached, σ)
  | None =>
      match fetchFromDutchie net STORES_QUERY [] None with
      | Ok data =>
          let stores := default [] (data ≫= retailers) in
          match getKVNamespace locals with
          | Some kv =>
              if (0 <? length stores)%nat
              then match put_fault kv stores_cache_key with
                   | Some _ => (Ok stores, σ)
                   | None =>
                       (Ok stores,
                        mkKVState (<[stores_cache_key := (stores, CACHE_TTL_SECONDS)]>
                                     (kv_stores σ)) (kv_specials σ))
                   end
              else (Ok stores, σ)
          | None => (Ok stores, σ)
          end
      | Throw _ => (Ok [], σ)
      end
  end.
Proof.
  unfold fetchDutchieStores. unfold bind at 1. rewrite readStoresCache_answer.
  destruct (stores_cache_answer locals σ); [reflexivity|].
  unfold try_catch, bind, lift, kv_put_stores, ret.
  destruct (fetchFromDutchie net STORES_QUERY [] None) as [data|e]; [|reflexivity].
  destruct (getKVNamespace locals) as [kv|]; [|reflexivity].
  destruct (0 <? length (default [] (data ≫= retailers)))%nat; [|reflexivity].
  destruct (put_fault kv stores_cache_key); reflexivity.
Qed.

(** X5: a second [fetchDutchieStores] call, on the cache the first call
    left, returns the same stores and leaves that cache as it is. *)
Theorem fetchDutchieStores_idempotent net locals σ :
  exists stores σ1,
    fetchDutchieStores net locals σ = (Ok stores, σ1)
    /\ fetchDutchieStores net locals σ1 = (Ok stores, σ1).
Proof.
  setoid_rewrite fetchDutchieStores_unfold.
  destruct (stores_cache_answer locals σ) as [cached|] eqn:Hc.
  - exists cached, σ. rewrite Hc. auto.
  - unfold stores_cache_answer in *.
    destruct (fetchFromDutchie net STORES_QUERY [] None) as [data|e];
      [|exists [], σ; rewrite Hc; auto].
    simpl.
    destruct (getKVNamespace locals) as [ns|] eqn:Hns;
      [|eexists _, σ; split; reflexivity].
    destruct (0 <? length (default [] (data ≫= retailers)))%nat eqn:Hlen;
      [|eexists _, σ; rewrite Hc; split; reflexivity].
    destruct (put_fault ns stores_cache_key) as [e|] eqn:Hput;
      [eexists _, σ; rewrite Hc; split; reflexivity|].
    eexists _, _. split; [reflexivity|]. simpl.
    destruct (get_fault ns stores_cache_key) as [e|].
    + rewrite insert_insert_eq. reflexivity.
    + rewrite lookup_insert_eq. reflexivity.
Qed.

(** ** Multi-store *)

Lemma task_step_frame net locals t σ out σ' :
  task_step net locals t σ = (out, σ') ->
  kv_stores σ' = kv_stores σ
  /\ (forall key, key <> specials_cache_key (store_id (task_store t)) ->
        kv_specials σ' !! key = kv_specials σ !! key)
  /\ (forall t', out = inl t' -> task_store t' = task_store t).
Proof.
  destruct t as [store|store]; simpl.
  - rewrite readSpecialsCache_answer.
    destruct (cache_answer locals σ (store_id store)); intros [= <- <-];
      repeat split; try discriminate.
    intros t' [= <-]. reflexivity.
  - destruct (fetchSpecialsFromApi_returns net (store_id store) (getKVNamespace locals)
                (specials_cache_key (store_id store)) σ) as (σ1 & Hrun & Hσ1).
    rewrite Hrun. intros [= <- <-].
    destruct Hσ1 as [->|(ns & _ & _ & ->)]; simpl.
    + repeat split. discriminate.
    + split; [reflexivity|]. split; [|discriminate].
      intros key Hkey. apply lookup_insert_ne. congruence.
Qed.

Lemma run_pool_frame net locals (stores : list Store) fuel :
  forall sched pool slots σ slots' σ',
    (forall i t, (i, t) ∈ pool -> task_store t ∈ stores) ->
    run_pool net locals fuel sched pool slots σ = (slots', σ') ->
    kv_stores σ' = kv_stores σ
    /\ forall key,
        key ∉ (fun s => specials_cache_key (store_id s)) <$> stores ->
        kv_specials σ' !! key = kv_specials σ !! key.
Proof.
  induction fuel as [|fuel IH]; intros sched pool slots σ slots' σ' Hpool Hrun.
  - simpl in Hrun. injection Hrun as <- <-. auto.
  - simpl in Hrun.
    set (k := (hd O sched `mod` length pool)%nat) in *.
    destruct (pool !! k) as [[i t]|] eqn:Hlook;
      [|injection Hrun as <- <-; auto].
    destruct (list_elem_of_split_length pool k (i, t) Hlook) as (l1 & l2 & Hsplit & Hk).
    assert (Ht : task_store t ∈ stores).
    { apply (Hpool i). rewrite Hsplit. apply elem_of_app. right. left. }
    destruct (task_step net locals t σ) as [out σ1] eqn:Hstep.
    destruct (task_step_frame net locals t σ out σ1 Hstep) as (Hst & Hsp & Hsame).
    assert (Hframe1 : forall key,
               key ∉ (fun s => specials_cache_key (store_id s)) <$> stores ->
               kv_specials σ1 !! key = kv_specials σ !! key).
    { intros key Hkey. apply Hsp. intros ->. apply Hkey.
      apply list_elem_of_fmap. exists (task_store t). auto. }
    rewrite Hsplit, Hk in Hrun.
    destruct out as [t'|r].
    + rewrite insert_app_r_alt in Hrun by lia.
      rewrite Nat.sub_diag in Hrun. simpl in Hrun.
      apply IH in Hrun as [H1 H2].
      * split; [congruence|]. intros key Hkey. rewrite H2, Hframe1; auto.
      * intros j u Hin. apply elem_of_app in Hin as [Hin|Hin].
        -- apply (Hpool j). rewrite Hsplit. apply elem_of_app. left. exact Hin.
        -- apply elem_of_cons in Hin as [Heq|Hin].
           ++ injection Heq as -> ->. rewrite (Hsame t' eq_refl). exact Ht.
           ++ apply (Hpool j). rewrite Hsplit. apply elem_of_app. right. right. exact Hin.
    + rewrite delete_middle in Hrun.
      apply IH in Hrun as [H1 H2].
      * split; [congruence|]. intros key Hkey. rewrite H2, Hframe1; auto.
      * intros j u Hin. apply (Hpool j). rewrite Hsplit.
        apply elem_of_app in Hin as [Hin|Hin]; apply elem_of_app;
          [left | right; right]; exact Hin.
Qed.

(** X12: [fetchMultipleStoreSpecials] never touches the cached store list
    nor any specials key other than those of the input stores. *)
Theorem fetchMultipleStoreSpecials_frame net stores locals σ sched :
  exists r σ',
    fetchMultipleStoreSpecials net sched stores locals σ = Some (r, σ')
    /\ kv_stores σ' = kv_stores σ
    /\ forall key,
        key ∉ (fun s => specials_cache_key (store_id s)) <$> stores ->
        kv_specials σ' !! key = kv_specials σ !! key.
Proof.
  destruct (fetchMultipleStoreSpecials_sound net locals σ sched stores σ
              (same_view_refl net locals σ)) as (σ' & Hrun & _).
  exists (aggregate_of net locals σ stores), σ'. split; [exact Hrun|].
  unfold fetchMultipleStoreSpecials, Promise_allSettled in Hrun.
  destruct (run_pool net locals (2 * length stores) sched
              (imap (fun i store => (i, AwaitingCache store)) stores)
              (replicate (length stores) None) σ) as [slots σ1] eqn:Hpool.
  assert (Hσ : σ1 = σ').
  { destruct (mapM id slots); simpl in Hrun; [|discriminate].
    injection Hrun as _ <-. reflexivity. }
  subst σ1.
  apply (run_pool_frame net locals stores) in Hpool; [exact Hpool|].
  intros i t Hin. apply elem_of_lookup_imap in Hin as (j & s & Heq & Hs).
  injection Heq as -> ->. simpl. apply list_elem_of_lookup. eauto.
Qed.

(** X10: a store is listed in [storeSpecials] exactly when a lone
    [fetchStoreSpecials] call for it, on the cache as it was before the
    request, returns a non-empty list; the entry carries that list, and its
    [specialCount] is the list's length. *)
Theorem fetchMultipleStoreSpecials_entries net stores locals σ sched :
  exists r σ',
    fetchMultipleStoreSpecials net sched stores locals σ = Some (r, σ')
    /\ (forall e, e ∈ storeSpecials r ->
          sr_store e ∈ stores
          /\ fst (fetchStoreSpecials net (store_id (sr_store e)) (store_name (sr_store e))
                    locals σ) = Ok (sr_products e)
          /\ specialCount e = length (sr_products e)
          /\ (0 < specialCount e)%nat)
    /\ (forall s products,
          s ∈ stores ->
          fst (fetchStoreSpecials net (store_id s) (store_name s) locals σ) = Ok products ->
          products <> [] ->
          mkStoreSpecialsResult s products (length products) ∈ storeSpecials r).
Proof.
  destruct (fetchMultipleStoreSpecials_sound net locals σ sched stores σ
              (same_view_refl net locals σ)) as (σ' & Hrun & _).
  exists (aggregate_of net locals σ stores), σ'. split; [exact Hrun|].
  rewrite aggregate_of_storeSpecials. split.
  - intros e He. apply list_elem_of_omap in He as (s & Hs & Hentry).
    unfold entry_of in Hentry.
    destruct (Nat.ltb_spec 0 (length (specials_of net locals σ (store_id s))))
      as [Hpos|]; [|discriminate].
    injection Hentry as <-. simpl.
    destruct (fetchStoreSpecials_returns net (store_id s) (store_name s) locals σ)
      as (σ1 & Hcall).
    rewrite Hcall. auto.
  - intros s products Hs Hcall Hne.
    apply list_elem_of_omap. exists s. split; [exact Hs|].
    destruct (fetchStoreSpecials_returns net (store_id s) (store_name s) locals σ)
      as (σ1 & Hcall').
    rewrite Hcall' in Hcall. simpl in Hcall. injection Hcall as Hcall.
    unfold entry_of. rewrite Hcall.
    destruct (Nat.ltb_spec 0 (length products)) as [|Hzero]; [reflexivity|].
    destruct products; [congruence | simpl in Hzero; lia].
Qed.

(** X11: calling [fetchMultipleStoreSpecials] again on the cache the first
    call left returns the same aggregate, for any resumption orders. *)
Theorem fetchMultipleStoreSpecials_repeatable net stores locals σ sched1 sched2 :
  exists r σ1 σ2,
    fetchMultipleStoreSpecials net sched1 stores locals σ = Some (r, σ1)
    /\ fetchMultipleStoreSpecials net sched2 stores locals σ1 = Some (r, σ2).
Proof.
  destruct (fetchMultipleStoreSpecials_sound net locals σ sched1 stores σ
              (same_view_refl net locals σ)) as (σ1 & Hrun1 & Hview1).
  destruct (fetchMultipleStoreSpecials_sound net locals σ sched2 stores σ1 Hview1)
    as (σ2 & Hrun2 & _).
  eauto.
Qed.

(** X13: on any array of settled tasks, the loop reports each rejected task
    once, in input order, as ["<store name>: <message>"], with
    ["Unknown error"] standing for an empty message. *)
Theorem process_results_rejections results :
  forall stores,
    length results = length stores ->
    errors (process_results stores results no_results) =
    omap (fun p : Store * Settled (Store * list Product) =>
            match p.2 with
            | Rejected reason =>
                Some (store_name p.1 +:+ ": "
                      +:+ (if String.eqb (err_message reason) ""
                           then "Unknown error" else err_message reason))
            | Fulfilled _ => None
            end) (zip stores results).
Proof.
  induction results as [|result results IH]; intros stores Hlen.
  - destruct stores; [reflexivity | discriminate].
  - destruct stores as [|store stores]; [discriminate|].
    injection Hlen as Hlen.
    rewrite process_results_cons. simpl. rewrite (IH stores Hlen).
    destruct result as [[s products]|reason]; simpl.
    + destruct (0 <? length products)%nat; reflexivity.
    + reflexivity.
Qed.

Lemma process_results_rejections_witness :
  errors (process_results [store_A; store_B]
            [Rejected (Error ""); Rejected (Error "Request timeout after 10000ms")]
            no_results)
  = ["A: Unknown error"; "B: Request timeout after 10000ms"].
Proof.
  apply (process_results_rejections
           [Rejected (Error ""); Rejected (Error "Request timeout after 10000ms")]
           [store_A; store_B]).
  reflexivity.
Defined.

(** With a batch size that is not positive the loop index never passes the
    end of a non-empty input. *)
Lemma batches_loop_never_finishes net stores batchSize locals fuel :
  batchSize <= 0 -> stores <> [] ->
  forall scheds i acc σ,
    i <= 0 ->
    batches_loop fuel net scheds stores batchSize locals i acc σ = None.
Proof.
  intros Hb Hne. induction fuel as [|fuel IH]; intros scheds i acc σ Hi; [reflexivity|].
  cbn [batches_loop].
  destruct (Z.ltb_spec i (Z.of_nat (length stores))) as [_|Hlen].
  - destruct (fetchMultipleStoreSpecials net (hd [] scheds)
                (js_slice stores i (i + batchSize)) locals σ) as [[r σ']|];
      [|reflexivity].
    simpl. apply IH. lia.
  - destruct stores; [congruence | simpl in Hlen; lia].
Qed.

(** X14: with a batch size of zero or less and at least one store,
    [fetchStoreSpecialsInBatches] never returns, however many iterations
    it is given. *)
Theorem batches_need_positive_size fuel net scheds stores batchSize locals σ :
  batchSize <= 0 -> stores <> [] ->
  fetchStoreSpecialsInBatches fuel net scheds stores (Some batchSize) locals σ = None.
Proof.
  intros Hb Hne. unfold fetchStoreSpecialsInBatches. simpl.
  apply batches_loop_never_finishes; [exact Hb | exact Hne | lia].
Qed.

Lemma batches_need_positive_size_witness :
  fetchStoreSpecialsInBatches 1000 scenario_net [] [store_A; store_B; store_C]
    (Some 0) None empty_kv = None.
Proof.
  apply (batches_need_positive_size 1000 scenario_net [] [store_A; store_B; store_C] 0
           None empty_kv).
  - lia.
  - discriminate.
Defined.

(** ** calculateDiscount *)

(** X15: for a fixed finite non-negative regular price, a lower positive
    special price never gives a smaller discount, in binary64 arithmetic:
    both discounts are integers, and the one of the lower special price is
    at least the other. *)
Theorem calculateDiscount_antitone (regular : number) (s1 s2 : Q) :
  binary64 regular -> is_finite regular -> nonnegative regular ->
  (0 < s1)%Q -> (s1 <= s2)%Q ->
  exists n1 n2 : Z,
    calculateDiscount regular (Finite s1) = num n1
    /\ calculateDiscount regular (Finite s2) = num n2
    /\ 0 <= n2 <= n1 /\ n1 <= 100.
Proof.
  intros Hb Hf Hr Hs1 Hle.
  destruct (nonnegative_finite regular Hb Hf Hr) as [[b ->]|(r & -> & H0 & Hd & Hmax)].
  - exists 0, 0. repeat split; lia.
  - destruct (Qlt_le_dec s2 r) as [Hlt|Hge].
    + destruct (calculateDiscount_proper r s1 ltac:(lra) ltac:(lra) Hd Hmax)
        as (c1 & Hc1 & Hcalc1 & Hn1).
      destruct (calculateDiscount_proper r s2 ltac:(lra) Hlt Hd Hmax)
        as (c2 & Hc2 & Hcalc2 & Hn2).
      exists (Qfloor (c1 + (1 # 2))), (Qfloor (c2 + (1 # 2))).
      split; [exact Hcalc1|]. split; [exact Hcalc2|].
      split; [|lia]. split; [lia|].
      apply Qfloor_resp_le. apply Qplus_le_l. rewrite Hc1, Hc2.
      assert (Ha : (round64 (r - s2) <= round64 (r - s1))%Q)
        by (apply round64_mono; lra).
      pose proof (round64_nonneg (r - s2) ltac:(lra)) as Ha0.
      assert (Hq : (round64 (r - s2) / r <= round64 (r - s1) / r)%Q).
      { unfold Qdiv. apply Qmult_le_compat_r; [exact Ha|].
        apply Qlt_le_weak, Qinv_lt_0_compat. exact H0. }
      assert (Hq0 : (0 <= round64 (r - s2) / r)%Q).
      { apply Qle_shift_div_l; [exact H0 | lra]. }
      assert (Hb' : (round64 (round64 (r - s2) / r)
                     <= round64 (round64 (r - s1) / r))%Q)
        by (apply round64_mono; assumption).
      pose proof (round64_nonneg _ Hq0) as Hb0.
      apply round64_mono; lra.
    + exists (match calculateDiscount (Finite r) (Finite s1) with
              | Finite q => Qfloor q | _ => 0 end), 0.
      destruct (Qlt_le_dec s1 r) as [Hlt1|Hge1].
      * destruct (calculateDiscount_proper r s1 ltac:(lra) Hlt1 Hd Hmax)
          as (c1 & _ & Hcalc1 & Hn1).
        rewrite Hcalc1.
        assert (Hself : match num (Qfloor (c1 + (1 # 2))) with
                        | Finite q => Qfloor q | _ => 0 end = Qfloor (c1 + (1 # 2))).
        { unfold num. destruct (Z.eqb_spec (Qfloor (c1 + (1 # 2))) 0) as [->|];
            [reflexivity | apply Qfloor_Z]. }
        rewrite Hself. split; [reflexivity|].
        split; [apply calculateDiscount_not_below; exact Hge|]. lia.
      * rewrite (calculateDiscount_not_below r s1 Hge1).
        split; [reflexivity|].
        split; [apply calculateDiscount_not_below; exact Hge|]. lia.
Qed.

Lemma calculateDiscount_antitone_witness :
  exists n1 n2 : Z,
    calculateDiscount (num 1000) (Finite 750) = num n1
    /\ calculateDiscount (num 1000) (Finite 900) = num n2
    /\ 0 <= n2 <= n1 /\ n1 <= 100.
Proof.
  apply (calculateDiscount_antitone (num 1000) 750 900).
  - vm_compute. split; [discriminate | split; reflexivity].
  - exact I.
  - reflexivity.
  - reflexivity.
  - discriminate.
Defined.

(** * Properties of [image-utils.ts] *)

Lemma append_cons a (p r : string) : String a p +:+ r = String a (p +:+ r).
Proof. reflexivity. Qed.

Lemma strip_prefix_app p s : strip_prefix p (p +:+ s) = Some s.
Proof.
  induction p as [|a p IH]; simpl; [destruct s; reflexivity|].
  rewrite Ascii.eqb_refl. exact IH.
Qed.

Lemma strip_prefix_Some p : forall s r, strip_prefix p s = Some r -> s = p +:+ r.
Proof.
  induction p as [|a p IH]; intros s r H.
  - destruct s; simpl in H; injection H as <-; reflexivity.
  - destruct s as [|b s]; simpl in H; [discriminate|].
    destruct (Ascii.eqb a b) eqn:E; [|discriminate].
    apply Ascii.eqb_eq in E. subst b. rewrite append_cons. f_equal. apply IH. exact H.
Qed.

Lemma span_spec P s : forall a b, span P s = (a, b) -> s = a +:+ b.
Proof.
  induction s as [|c s IH]; intros a b H; simpl in H.
  - injection H as <- <-. reflexivity.
  - destruct (P c).
    + destruct (span P s) as [a' b'] eqn:E. injection H as <- <-.
      rewrite append_cons. f_equal. apply IH. reflexivity.
    + injection H as <- <-. reflexivity.
Qed.

Lemma span_app P a c b :
  forallb P (String.list_ascii_of_string a) = true -> P c = false ->
  span P (a +:+ String c b) = (a, String c b).
Proof.
  intros Ha Hc. induction a as [|x a IH].
  - simpl. rewrite Hc. reflexivity.
  - simpl in Ha. apply andb_true_iff in Ha as [Hx Ha].
    rewrite append_cons. cbn [span]. rewrite Hx, (IH Ha). reflexivity.
Qed.

Lemma string_app_assoc (a b c : string) : (a +:+ b) +:+ c = a +:+ (b +:+ c).
Proof.
  induction a as [|x a IH]; [reflexivity|].
  rewrite !append_cons, IH. reflexivity.
Qed.

Lemma has_line_terminator_plain a b :
  forallb plain_char (String.list_ascii_of_string a) = true ->
  has_line_terminator (a +:+ b) = has_line_terminator b.
Proof.
  induction a as [|c a IH]; intros Ha; [reflexivity|].
  simpl in Ha. apply andb_true_iff in Ha as [Hc Ha].
  unfold plain_char in Hc. apply negb_true_iff in Hc.
  apply orb_false_iff in Hc as [Hc H226]. apply orb_false_iff in Hc as [H10 H13].
  change (String c a +:+ b) with (String c (a +:+ b)).
  cbn [has_line_terminator]. rewrite H10, H13, H226, (IH Ha). simpl.
  destruct (a +:+ b) as [|c1 [|c2 s]]; reflexivity.
Qed.

Lemma includes_upload_prefix s :
  includes (upload_prefix +:+ s) "res.cloudinary.com" = true.
Proof. reflexivity. Qed.

Lemma match_upload_base_Some url base rest :
  match_upload_base url = Some (base, rest) ->
  exists cloud,
    base = upload_prefix +:+ cloud +:+ upload_marker
    /\ url = upload_prefix +:+ cloud +:+ upload_marker +:+ rest.
Proof.
  unfold match_upload_base. intros H.
  destruct (strip_prefix "https://res.cloudinary.com/" url) as [rest1|] eqn:H1;
    cbn [mbind option_bind] in H; [|discriminate].
  destruct (span not_slash rest1) as [cloud rest2] eqn:H2.
  destruct (String.eqb cloud ""); [discriminate|].
  destruct (strip_prefix "/image/upload/" rest2) as [rest3|] eqn:H3;
    cbn [mbind option_bind] in H; [|discriminate].
  injection H as <- <-.
  apply strip_prefix_Some in H1, H3. apply span_spec in H2.
  exists cloud. split; [reflexivity|].
  rewrite H1, H2, H3. unfold upload_prefix, upload_marker.
  rewrite ?string_app_assoc. reflexivity.
Qed.

Lemma match_upload_base_app cloud rest :
  cloud <> "" -> forallb not_slash (String.list_ascii_of_string cloud) = true ->
  match_upload_base (upload_prefix +:+ cloud +:+ upload_marker +:+ rest)
  = Some (upload_prefix +:+ cloud +:+ upload_marker, rest).
Proof.
  intros Hne Hcloud. unfold match_upload_base, upload_prefix, upload_marker.
  rewrite strip_prefix_app. cbn [mbind option_bind].
  change ("/image/upload/" +:+ rest) with (String "/" ("image/upload/" +:+ rest)).
  rewrite span_app by (exact Hcloud || reflexivity).
  destruct (String.eqb_spec cloud ""); [congruence|].
  change (String "/" ("image/upload/" +:+ rest)) with ("/image/upload/" +:+ rest).
  rewrite strip_prefix_app. reflexivity.
Qed.

Lemma match_cloudinaryPattern_Some url base version path :
  match_cloudinaryPattern url = Some (base, version, path) ->
  match_upload_base url = Some (base, version +:+ path).
Proof.
  unfold match_cloudinaryPattern.
  destruct (match_upload_base url) as [[base0 rest]|];
    cbn [mbind option_bind]; [|discriminate].
  destruct (strip_prefix "v" rest) as [rest1|] eqn:H1;
    cbn [mbind option_bind]; [|discriminate].
  destruct (span is_digit rest1) as [digits rest2] eqn:H2.
  destruct (String.eqb digits ""); [discriminate|].
  destruct (strip_prefix "/" rest2) as [path0|] eqn:H3;
    cbn [mbind option_bind]; [|discriminate].
  destruct (to_end_of_line path0); [|discriminate].
  intros [= <- <- <-].
  apply strip_prefix_Some in H1, H3. apply span_spec in H2.
  rewrite H1, H2, H3. rewrite ?string_app_assoc. reflexivity.
Qed.

(** Whichever pattern matches, the transformation string goes right after
    the group the two patterns share. *)
Lemma transformToWebP_after_base url base rest options :
  url <> "" -> includes url "res.cloudinary.com" = true ->
  match_upload_base url = Some (base, rest) -> to_end_of_line rest = true ->
  transformToWebP (Some url) options
  = Some (base +:+ transformString (default no_options options) +:+ "/" +:+ rest).
Proof.
  intros Hne Hincl Hbase Hrest. unfold transformToWebP.
  destruct (String.eqb_spec url ""); [congruence|].
  rewrite Hincl. cbn [negb].
  destruct (match_cloudinaryPattern url) as [[[base' version] path]|] eqn:Hv.
  - apply match_cloudinaryPattern_Some in Hv. rewrite Hbase in Hv.
    injection Hv as <- ->. reflexivity.
  - unfold match_simplePattern. rewrite Hbase. cbn [mbind option_bind].
    rewrite Hrest. reflexivity.
Qed.

Lemma to_end_of_line_iff rest :
  to_end_of_line rest = true <-> rest <> "" /\ has_line_terminator rest = false.
Proof.
  unfold to_end_of_line. rewrite andb_true_iff, !negb_true_iff.
  destruct (String.eqb_spec rest ""); split; intros [H1 H2]; split;
    congruence || auto.
Qed.

(** X17: for a non-empty URL [transformToWebP] returns a URL, and that URL
    is either the input itself or the input with one segment, the
    transformation string followed by [/], inserted right after
    [https://res.cloudinary.com/<cloud>/image/upload/]; nothing else of the
    input is changed or dropped. *)
Theorem transformToWebP_shape url options :
  url <> "" ->
  exists result,
    transformToWebP (Some url) options = Some result
    /\ (result = url
        \/ exists cloud rest,
            url = upload_prefix +:+ cloud +:+ upload_marker +:+ rest
            /\ result = upload_prefix +:+ cloud +:+ upload_marker
                        +:+ transformString (default no_options options) +:+ "/" +:+ rest).
Proof.
  intros Hne. unfold transformToWebP.
  destruct (String.eqb_spec url ""); [congruence|].
  destruct (includes url "res.cloudinary.com"); [|eauto]. simpl.
  destruct (match_cloudinaryPattern url) as [[[base version] path]|] eqn:Hv.
  - apply match_cloudinaryPattern_Some, match_upload_base_Some in Hv
      as (cloud & -> & Hurl).
    eexists. split; [reflexivity|]. right. exists cloud, (version +:+ path).
    split; [exact Hurl|]. rewrite ?string_app_assoc. reflexivity.
  - unfold match_simplePattern.
    destruct (match_upload_base url) as [[base path]|] eqn:Hb; [|simpl; eauto].
    simpl. destruct (to_end_of_line path); [|eauto].
    apply match_upload_base_Some in Hb as (cloud & -> & Hurl).
    eexists. split; [reflexivity|]. right. exists cloud, path.
    split; [exact Hurl|]. rewrite ?string_app_assoc. reflexivity.
Qed.

Lemma plain_app a b : plain a -> plain b -> plain (a +:+ b).
Proof.
  unfold plain. intros Ha Hb. induction a as [|c a IH]; [exact Hb|].
  rewrite append_cons. simpl in *.
  apply andb_true_iff in Ha as [Hc Ha]. rewrite Hc. exact (IH Ha).
Qed.

Lemma pretty_N_char_plain x : plain_char (pretty_N_char x) = true.
Proof. unfold pretty_N_char. repeat case_match; reflexivity. Qed.

Lemma pretty_N_go_plain x : forall s, plain s -> plain (pretty_N_go x s).
Proof.
  induction (N.lt_wf_0 x) as [x _ IH]; intros s Hs.
  destruct (decide (x = 0)%N) as [->|Hx]; [exact Hs|].
  rewrite pretty_N_go_step by lia.
  apply IH; [apply N.div_lt; lia|].
  unfold plain in *. simpl. rewrite pretty_N_char_plain. exact Hs.
Qed.

Lemma pretty_Z_plain (z : Z) : plain (pretty z).
Proof.
  assert (HN : forall n : N, plain (pretty n)).
  { intros n. unfold pretty, pretty_N. case_decide; [reflexivity|].
    apply pretty_N_go_plain. reflexivity. }
  destruct z as [|p|p]; [reflexivity | apply HN |].
  change (pretty (Z.neg p)) with ("-" +:+ pretty (N.pos p)).
  apply plain_app; [reflexivity | apply HN].
Qed.

Lemma transformString_plain options : plain (transformString options).
Proof.
  unfold transformString.
  assert (Hf : plain ("f_" +:+ format_name (default format_webp (format options)))).
  { apply plain_app; [reflexivity|]. destruct (format options) as [[]|]; reflexivity. }
  assert (Hq : plain ("q_" +:+ quality_name (default quality_auto (quality options)))).
  { apply plain_app; [reflexivity|].
    destruct (quality options) as [[|q]|];
      [reflexivity | apply pretty_Z_plain | reflexivity]. }
  assert (Hc : plain ("c_" +:+ crop_name (default crop_fill (crop options)))).
  { apply plain_app; [reflexivity|]. destruct (crop options) as [[]|]; reflexivity. }
  assert (Hw : plain ("w_" +:+ pretty (default 0 (width options)))).
  { apply plain_app; [reflexivity | apply pretty_Z_plain]. }
  assert (Hh : plain ("h_" +:+ pretty (default 0 (height options)))).
  { apply plain_app; [reflexivity | apply pretty_Z_plain]. }
  assert (Hcomma : plain ",") by reflexivity.
  destruct (number_truthy (width options)), (number_truthy (height options));
    cbn [orb app join]; repeat apply plain_app; assumption.
Qed.

Lemma append_not_empty (a b : string) : b <> "" -> a +:+ b <> "".
Proof. destruct a; [auto | discriminate]. Qed.

(** X18: every URL made of the Cloudinary prefix, a non-empty cloud name
    without [/], the [/image/upload/] marker and a non-empty rest without
    line terminators gets the transformation string inserted after the
    marker, whether or not the rest starts with a version segment. *)
Theorem transformToWebP_inserts cloud rest options :
  cloud <> "" -> forallb not_slash (String.list_ascii_of_string cloud) = true ->
  rest <> "" -> has_line_terminator rest = false ->
  transformToWebP (Some (upload_prefix +:+ cloud +:+ upload_marker +:+ rest)) options
  = Some (upload_prefix +:+ cloud +:+ upload_marker
          +:+ transformString (default no_options options) +:+ "/" +:+ rest).
Proof.
  intros Hne Hcloud Hrest Hline.
  rewrite (transformToWebP_after_base _ (upload_prefix +:+ cloud +:+ upload_marker) rest).
  - rewrite ?string_app_assoc. reflexivity.
  - discriminate.
  - apply includes_upload_prefix.
  - apply match_upload_base_app; assumption.
  - apply to_end_of_line_iff. auto.
Qed.

Lemma transformToWebP_inserts_witness :
  transformToWebP (Some example_url) None
  = Some "https://res.cloudinary.com/dcltaajwj/image/upload/f_webp,q_auto/v1759857089/mintdeals/image.jpg".
Proof.
  apply (transformToWebP_inserts "dcltaajwj" "v1759857089/mintdeals/image.jpg" None).
  - discriminate.
  - reflexivity.
  - discriminate.
  - reflexivity.
Defined.

(** X19: [transformToWebP] is not idempotent: transforming a transformed
    URL inserts the second transformation string in front of the first. *)
Theorem transformToWebP_stacks cloud rest options1 options2 :
  cloud <> "" -> forallb not_slash (String.list_ascii_of_string cloud) = true ->
  rest <> "" -> has_line_terminator rest = false ->
  transformToWebP
    (transformToWebP (Some (upload_prefix +:+ cloud +:+ upload_marker +:+ rest)) options1)
    options2
  = Some (upload_prefix +:+ cloud +:+ upload_marker
          +:+ transformString (default no_options options2) +:+ "/"
          +:+ transformString (default no_options options1) +:+ "/" +:+ rest).
Proof.
  intros Hne Hcloud Hrest Hline.
  rewrite (transformToWebP_after_base _ (upload_prefix +:+ cloud +:+ upload_marker) rest);
    [| discriminate | apply includes_upload_prefix
     | apply match_upload_base_app; assumption
     | apply to_end_of_line_iff; auto].
  rewrite !string_app_assoc.
  rewrite (transformToWebP_after_base _ (upload_prefix +:+ cloud +:+ upload_marker)
             (transformString (default no_options options1) +:+ "/" +:+ rest)).
  - rewrite ?string_app_assoc. reflexivity.
  - discriminate.
  - apply includes_upload_prefix.
  - apply match_upload_base_app; assumption.
  - apply to_end_of_line_iff. split.
    + apply append_not_empty. discriminate.
    + rewrite has_line_terminator_plain by apply transformString_plain.
      rewrite (has_line_terminator_plain "/" rest) by reflexivity. exact Hline.
Qed.

Lemma transformToWebP_stacks_witness :
  imageTransforms_card (imageTransforms_auto (Some example_url))
  = Some "https://res.cloudinary.com/dcltaajwj/image/upload/w_400,h_192,c_fill,f_webp,q_auto/f_webp,q_auto/v1759857089/mintdeals/image.jpg".
Proof.
  apply (transformToWebP_stacks "dcltaajwj" "v1759857089/mintdeals/image.jpg"
           None (dimensions 400 192)).
  - discriminate.
  - reflexivity.
  - discriminate.
  - reflexivity.
Defined.

(** X20: with a non-zero width and height and no other option, the
    inserted segment is [w_<width>,h_<height>,c_fill,f_webp,q_auto]: the
    crop mode is always there, although the second example of the docstring
    leaves it out. *)
Theorem transformToWebP_with_dimensions cloud rest w h :
  cloud <> "" -> forallb not_slash (String.list_ascii_of_string cloud) = true ->
  rest <> "" -> has_line_terminator rest = false ->
  w <> 0 -> h <> 0 ->
  transformToWebP (Some (upload_prefix +:+ cloud +:+ upload_marker +:+ rest))
    (dimensions w h)
  = Some (upload_prefix +:+ cloud +:+ upload_marker
          +:+ "w_" +:+ pretty w +:+ ",h_" +:+ pretty h +:+ ",c_fill,f_webp,q_auto/"
          +:+ rest).
Proof.
  intros Hne Hcloud Hrest Hline Hw Hh.
  rewrite (transformToWebP_after_base _ (upload_prefix +:+ cloud +:+ upload_marker) rest);
    [| discriminate | apply includes_upload_prefix
     | apply match_upload_base_app; assumption
     | apply to_end_of_line_iff; auto].
  unfold transformString. simpl.
  apply Z.eqb_neq in Hw, Hh. rewrite Hw, Hh. cbn [negb orb app join].
  f_equal. rewrite ?string_app_assoc. reflexivity.
Qed.

Lemma transformToWebP_with_dimensions_witness :
  transformToWebP (Some example_url) (dimensions 800 600)
  = Some "https://res.cloudinary.com/dcltaajwj/image/upload/w_800,h_600,c_fill,f_webp,q_auto/v1759857089/mintdeals/image.jpg".
Proof.
  apply (transformToWebP_with_dimensions "dcltaajwj" "v1759857089/mintdeals/image.jpg"
           800 600).
  - discriminate.
  - reflexivity.
  - discriminate.
  - reflexivity.
  - lia.
  - lia.
Defined.

Lemma transformToWebP_shape_witness :
  exists result,
    transformToWebP (Some "http://res.cloudinary.com/x/image/upload/a.png") None
      = Some result
    /\ (result = "http://res.cloudinary.com/x/image/upload/a.png"
        \/ exists cloud rest,
            "http://res.cloudinary.com/x/image/upload/a.png"
              = upload_prefix +:+ cloud +:+ upload_marker +:+ rest
            /\ result = upload_prefix +:+ cloud +:+ upload_marker
                        +:+ transformString (default no_options None) +:+ "/" +:+ rest).
Proof.
  apply (transformToWebP_shape "http://res.cloudinary.com/x/image/upload/a.png" None).
  discriminate.
Defined.
